(** * GDTools: dice and dice pools

    A shallow embedding of [gdtools/dice.py] and the properties of its
    range normaliser, of [Dice] and of [DicePool].

    Python integers are [Z].  A true division [a / b] of two integers is
    the exact rational [a / b] (a [Q] in lowest terms); the rounding of
    the quotient to a binary float is not modelled.  A raised exception is
    the [Raise] branch of [result].  The pseudo random generator is an
    explicit integer [draw] handed to [randrange]. *)

From Stdlib Require Import String DecimalString.
From Stdlib Require Import ZArith List Bool Lia QArith Permutation.
Import ListNotations.
Open Scope Z_scope.

(** ** Exceptions *)

Inductive exn : Type :=
| ValueError
| TypeError
| ZeroDivisionError
| StopIteration
| IndexError
| NotImplementedError.

Inductive result (A : Type) : Type :=
| Ok (a : A)
| Raise (e : exn).

Arguments Ok {A} a.
Arguments Raise {A} e.

Definition bind {A B : Type} (m : result A) (k : A -> result B) : result B :=
  match m with
  | Ok a => k a
  | Raise e => Raise e
  end.

Notation "x <- m ;; k" := (bind m (fun x => k))
  (at level 61, m at next level, right associativity).

(** ** Python built-ins used by the module *)

(** [range(start, stop)]; the module never gives a step. *)
Record range : Type := mkrange { start : Z; stop : Z }.

(** [len(r)]. *)
Definition range_len (r : range) : nat := Z.to_nat (stop r - start r).

(** [list(r)]: the integers [start, start + 1, ..., stop - 1]. *)
Definition range_elems (r : range) : list Z :=
  map (fun i => start r + Z.of_nat i) (seq 0 (range_len r)).

(** [r == s] on ranges compares them as sequences: the lengths agree and,
    unless both are empty, so do the first elements (the step is 1). *)
Definition range_eqb (r s : range) : bool :=
  Nat.eqb (range_len r) (range_len s)
  && (Nat.eqb (range_len r) 0 || (start r =? start s)).

(** [sum(l)]. *)
Definition sum (l : list Z) : Z := fold_right Z.add 0 l.

(** [a / b] on two integers. *)
Definition truediv (a b : Z) : result Q :=
  if b =? 0 then Raise ZeroDivisionError
  else Ok (Qred (Qdiv (inject_Z a) (inject_Z b))).

(** What [len] can be applied to in this module: a list has a length, a
    generator expression has none. *)
Inductive iterable : Type :=
| PyList (l : list Z)
| PyGenerator (l : list Z).

Definition py_len (it : iterable) : result Z :=
  match it with
  | PyList l => Ok (Z.of_nat (length l))
  | PyGenerator _ => Raise TypeError
  end.

(** [random.randrange(n)]: [ValueError] on an empty range, otherwise an
    index below [n] chosen by the generator, whose state is [draw]. *)
Definition randrange (n draw : Z) : result Z :=
  if n <=? 0 then Raise ValueError else Ok (draw mod n).

(** [random.randrange(a, b)]. *)
Definition randrange2 (a b draw : Z) : result Z :=
  i <- randrange (b - a) draw ;; Ok (a + i).

(** [itertools.product]: the tuples in lexicographic order, the last
    component varying fastest; one empty tuple when [ls] is empty. *)
Fixpoint product (ls : list (list Z)) : list (list Z) :=
  match ls with
  | [] => [[]]
  | l :: rest => flat_map (fun x => map (cons x) (product rest)) l
  end.

(** [collections.Counter]: keys in insertion order with their counts. *)
Definition Counter : Type := list (Z * Z).

(** [c[k] += 1]. *)
Fixpoint counter_incr (k : Z) (c : Counter) : Counter :=
  match c with
  | [] => [(k, 1)]
  | (k', v) :: c' =>
      if k' =? k then (k', v + 1) :: c' else (k', v) :: counter_incr k c'
  end.

(** [Counter(l)]. *)
Definition Counter_of (l : list Z) : Counter :=
  fold_left (fun c k => counter_incr k c) l [].

(** [c[k]], which is 0 for a key that is absent. *)
Fixpoint counter_get (c : Counter) (k : Z) : Z :=
  match c with
  | [] => 0
  | (k', v) :: c' => if k' =? k then v else counter_get c' k
  end.

(** [list(c.keys())] and [sum(c.values())]. *)
Definition counter_keys (c : Counter) : list Z := map fst c.
Definition counter_total (c : Counter) : Z := sum (map snd c).

(** [l[-1]]. *)
Fixpoint last_item (l : list Z) : result Z :=
  match l with
  | [] => Raise IndexError
  | [x] => Ok x
  | _ :: l' => last_item l'
  end.

(** [l[i]] for a non negative index. *)
Definition py_index {A : Type} (l : list A) (i : Z) : result A :=
  match nth_error l (Z.to_nat i) with
  | Some x => Ok x
  | None => Raise IndexError
  end.

(** ** The classes' data *)

(** [Dice]: the attributes set by [Dice.__init__]. *)
Record Dice : Type := mkDice {
  Dice_rng : range;
  Dice_avg : Q;
  Dice_min : Z;
  Dice_max : Z;
  Dice_sides : Z
}.

(** [DicePool]: the attributes set by [DicePool.__init__]. *)
Record DicePool : Type := mkDicePool {
  DicePool_rngs : list range;
  DicePool_mod : Z;
  DicePool_dist : Counter;
  DicePool_min : Z;
  DicePool_max : Z;
  DicePool_range : range
}.

(** ** normalize_rng (dice.py, lines 10-22) *)

Definition normalize_rng (value : Dice + range) : range * Z :=
  let rng := match value with inl d => Dice_rng d | inr r => r end in
  let md := start rng - 1 in
  (mkrange (start rng - md) (stop rng - md), md).

(** ** Dice (dice.py, lines 25-169) *)

(** [Dice.__init__(p1, p2=None)].  Both parameters are integers here, so
    the [isinstance] guard of line 46 passes. *)
Definition Dice_init (p1 : Z) (p2 : option Z) : result Dice :=
  let rng := match p2 with
             | None => mkrange 1 (p1 + 1)
             | Some p2 => mkrange p1 (p2 + 1)
             end in
  avg <- truediv (sum (range_elems rng)) (stop rng - 1) ;;
  Ok (mkDice rng avg (start rng) (stop rng - 1) (stop rng - 1)).

(** [Dice._chances]: line 119 takes [len] of a generator expression. *)
Definition Dice_chances (self : Dice) (threshold : Z)
    (comparator : Z -> Z -> bool) : result Q :=
  let total_chances := stop (Dice_rng self) - start (Dice_rng self) in
  chances_to_pass <-
    py_len (PyGenerator
              (filter (fun r => comparator r threshold)
                 (range_elems (Dice_rng self)))) ;;
  truediv chances_to_pass total_chances.

(** [Dice.rgt]: line 132 counts over a list and divides by [self.max]. *)
Definition Dice_rgt (self : Dice) (threshold : Z) : result Q :=
  n <- py_len (PyList (filter (fun i => threshold <? i)
                         (range_elems (Dice_rng self)))) ;;
  truediv n (Dice_max self).

Definition Dice_rge (self : Dice) (threshold : Z) : result Q :=
  Dice_chances self threshold (fun a b => b <=? a).

Definition Dice_rlt (self : Dice) (threshold : Z) : result Q :=
  Dice_chances self threshold (fun a b => a <? b).

Definition Dice_rle (self : Dice) (threshold : Z) : result Q :=
  Dice_chances self threshold (fun a b => a <=? b).

(** [Dice.roll]. *)
Definition Dice_roll (self : Dice) (draw : Z) : result Z :=
  randrange2 (start (Dice_rng self)) (stop (Dice_rng self)) draw.

(** ** DicePool (dice.py, lines 172-366) *)

(** One positional argument of the [DicePool] constructor. *)
Inductive arg : Type :=
| AInt (n : Z)
| ADice (d : Dice)
| ARange (r : range)
| APool (p : DicePool).

(** The body of the loop of lines 203-209 on the pair [(rngs, self.mod)]:
    an argument that is neither an integer, a [Dice] nor a range falls
    through both tests and changes nothing. *)
Definition init_step (st : list range * Z) (a : arg) : list range * Z :=
  let (rngs, md) := st in
  match a with
  | AInt n => (rngs, md + n)
  | ADice d =>
      let nrm := normalize_rng (inl d) in (rngs ++ [fst nrm], md + snd nrm)
  | ARange r =>
      let nrm := normalize_rng (inr r) in (rngs ++ [fst nrm], md + snd nrm)
  | APool _ => (rngs, md)
  end.

Definition init_scan (args : list arg) : list range * Z :=
  fold_left init_step args ([], 0).

(** Lines 212-214: the tally of [sum(result) + self.mod] over the
    product of the ranges. *)
Definition totals (rngs : list range) (md : Z) : list Z :=
  map (fun result => sum result + md) (product (map range_elems rngs)).

Definition build_dist (rngs : list range) (md : Z) : Counter :=
  Counter_of (totals rngs md).

(** Lines 210-219.  [next(iter(self.dist))] raises [StopIteration] on an
    empty counter. *)
Definition init_finish (rngs : list range) (md : Z) : result DicePool :=
  let dist := build_dist rngs md in
  mn <- match counter_keys dist with
        | [] => Raise StopIteration
        | k :: _ => Ok k
        end ;;
  mx <- last_item (counter_keys dist) ;;
  Ok (mkDicePool rngs md dist mn mx (mkrange mn mx)).

(** [DicePool.__init__]. *)
Definition DicePool_init (args : list arg) : result DicePool :=
  let (rngs, md) := init_scan args in init_finish rngs md.

(** The elements of the two tuples compared on line 252: the pool's tuple
    holds range objects, [tuple(rng)] holds the integers of [rng]. *)
Inductive pyval : Type :=
| VInt (n : Z)
| VRange (r : range).

Definition pyval_eqb (a b : pyval) : bool :=
  match a, b with
  | VInt x, VInt y => x =? y
  | VRange r, VRange s => range_eqb r s
  | _, _ => false
  end.

(** [t == u] on tuples. *)
Fixpoint tuple_eqb (t u : list pyval) : bool :=
  match t, u with
  | [], [] => true
  | a :: t', b :: u' => pyval_eqb a b && tuple_eqb t' u'
  | _, _ => false
  end.

(** [DicePool.__eq__] with a [Dice] on the right (lines 250-252). *)
Definition DicePool_eq_Dice (self : DicePool) (other : Dice) : bool :=
  let (rng, md) := normalize_rng (inl other) in
  tuple_eqb (map VRange (DicePool_rngs self)) (map VInt (range_elems rng))
  && (DicePool_mod self =? md).

(** The right operand of [+] and [-]. *)
Inductive operand : Type :=
| OInt (n : Z)
| ODice (d : Dice)
| OPool (p : DicePool).

(** [DicePool.__add__]. *)
Definition DicePool_add (self : DicePool) (other : operand)
    : result DicePool :=
  match other with
  | OInt n =>
      DicePool_init (map ARange (DicePool_rngs self)
                       ++ [AInt (DicePool_mod self + n)])
  | ODice d =>
      DicePool_init (map ARange (DicePool_rngs self)
                       ++ [ARange (Dice_rng d); AInt (DicePool_mod self)])
  | OPool q =>
      DicePool_init (map ARange (DicePool_rngs self ++ DicePool_rngs q)
                       ++ [AInt (DicePool_mod self + DicePool_mod q)])
  end.

(** [rng in rngs]. *)
Definition range_in (rng : range) (rngs : list range) : bool :=
  existsb (fun r => range_eqb r rng) rngs.

(** [rngs.remove(rng)]: drops the first element equal to [rng]. *)
Fixpoint list_remove (rng : range) (rngs : list range)
    : result (list range) :=
  match rngs with
  | [] => Raise ValueError
  | r :: rest =>
      if range_eqb r rng then Ok rest
      else (rest' <- list_remove rng rest ;; Ok (r :: rest'))
  end.

(** [DicePool.__sub__].  A pool on the right makes the method return
    [NotImplemented]; no reflected method exists, hence [TypeError]. *)
Definition DicePool_sub (self : DicePool) (other : operand)
    : result DicePool :=
  match other with
  | OInt n =>
      DicePool_init (map ARange (DicePool_rngs self)
                       ++ [AInt (DicePool_mod self - n)])
  | ODice d =>
      let (rng, md) := normalize_rng (inl d) in
      if range_in rng (DicePool_rngs self) then
        rngs <- list_remove rng (DicePool_rngs self) ;;
        DicePool_init (map ARange rngs ++ [AInt (DicePool_mod self - md)])
      else Raise ValueError
  | OPool _ => Raise TypeError
  end.

(** [DicePool._chances] (lines 283-301): sums over lists. *)
Definition DicePool_chances (self : DicePool) (threshold : Z)
    (comparator : Z -> Z -> bool) : result Q :=
  let total_chances := counter_total (DicePool_dist self) in
  let chances_to_pass :=
    sum (map snd (filter (fun kv => comparator (fst kv) threshold)
                    (DicePool_dist self))) in
  truediv chances_to_pass total_chances.

(** [DicePool.roll] (lines 365-366). *)
Definition DicePool_roll (self : DicePool) (draw : Z) : result Z :=
  let prod := product (map range_elems (DicePool_rngs self)) in
  i <- randrange (Z.of_nat (length prod) - 1) draw ;;
  t <- py_index prod i ;;
  Ok (sum t).

(** ** Vocabulary of the statements *)

(** [n1 * n2 * ... * nk]. *)
Fixpoint Zprod (ns : list Z) : Z :=
  match ns with
  | [] => 1
  | n :: ns' => n * Zprod ns'
  end.

(** A range as [normalize_rng] leaves it, and not empty. *)
Definition canonical (r : range) : Prop := start r = 1 /\ 1 < stop r.

(** The arithmetic mean of the faces of a range. *)
Definition mean_of_faces (r : range) : result Q :=
  truediv (sum (range_elems r)) (Z.of_nat (range_len r)).

(** [Dice(6)], [Dice(8)] and [Dice(4, 12)] as [Dice.__init__] leaves them. *)
Definition d6 : Dice := mkDice (mkrange 1 7) (7 # 2) 1 6 6.
Definition d8 : Dice := mkDice (mkrange 1 9) (9 # 2) 1 8 8.
Definition d4_12 : Dice := mkDice (mkrange 4 13) (6 # 1) 4 12 12.

(** ** The rest of Dice (dice.py, lines 72-106) *)





(** [Dice.__add__] (and [__radd__], which calls it).  With a pool on the
    right the method returns [NotImplemented] and [DicePool] has no
    [__radd__], hence [TypeError]. *)
Definition Dice_add (self : Dice) (other : operand) : result DicePool :=
  match other with
  | OInt n => DicePool_init [ADice self; AInt n]
  | ODice d => DicePool_init [ADice self; ADice d]
  | OPool _ => Raise TypeError
  end.

(** A list comprehension whose element expression may raise: the first
    exception ends it. *)
Fixpoint collect {A : Type} (l : list (result A)) : result (list A) :=
  match l with
  | [] => Ok []
  | m :: l' => a <- m ;; rest <- collect l' ;; Ok (a :: rest)
  end.

(** [Dice.__mul__] (and [__rmul__]) with an integer: line 102 builds
    [Dice(self.min, self.max)] once for each element of [range(other)]. *)
Definition Dice_mul (self : Dice) (other : Z) : result DicePool :=
  dice <- collect
            (map (fun _ => Dice_init (Dice_min self) (Some (Dice_max self)))
               (range_elems (mkrange 0 other))) ;;
  DicePool_init (map ADice dice).

(** ** The rest of DicePool (dice.py, lines 257-359) *)

(** [DicePool.__ne__] with a [Dice] on the right (line 259): the die's
    range is not normalised and the modifiers are not looked at. *)
Definition DicePool_ne_Dice (self : DicePool) (other : Dice) : bool :=
  negb (tuple_eqb (map VRange (DicePool_rngs self))
          (map VInt (range_elems (Dice_rng other)))).


(** [DicePool.rgt], [rge], [rlt] and [rle] on an integer threshold. *)
Definition DicePool_rgt (self : DicePool) (threshold : Z) : result Q :=
  DicePool_chances self threshold (fun a b => b <? a).

Definition DicePool_rge (self : DicePool) (threshold : Z) : result Q :=
  DicePool_chances self threshold (fun a b => b <=? a).

Definition DicePool_rlt (self : DicePool) (threshold : Z) : result Q :=
  DicePool_chances self threshold (fun a b => a <? b).

Definition DicePool_rle (self : DicePool) (threshold : Z) : result Q :=
  DicePool_chances self threshold (fun a b => a <=? b).

(** ** Equality of pools (dice.py, lines 253-254 and 260-261) *)

(** [c.get(k)] on the dictionary under a counter. *)
Fixpoint counter_lookup (c : Counter) (k : Z) : option Z :=
  match c with
  | [] => None
  | (k', v) :: c' => if k' =? k then Some v else counter_lookup c' k
  end.

(** [c1 == c2] on counters: all counts agree over the keys of both, a
    missing count being 0. *)
Definition Counter_eqb (c1 c2 : Counter) : bool :=
  forallb (fun e => counter_get c1 e =? counter_get c2 e)
    (counter_keys c1 ++ counter_keys c2).

(** [c1 == c2] as interpreters older than 3.10 compute it, on the
    dictionaries: as many items, and every item of [c1] is in [c2]. *)
Definition dict_eqb (c1 c2 : Counter) : bool :=
  Nat.eqb (length c1) (length c2)
  && forallb (fun kv => match counter_lookup c2 (fst kv) with
                        | Some v => v =? snd kv
                        | None => false
                        end) c1.

(** [DicePool.__eq__] and [DicePool.__ne__] with a pool on the right. *)
Definition DicePool_eq_pool (self other : DicePool) : bool :=
  Counter_eqb (DicePool_dist self) (DicePool_dist other)
  && (DicePool_mod self =? DicePool_mod other).

Definition DicePool_ne_pool (self other : DicePool) : bool :=
  negb (Counter_eqb (DicePool_dist self) (DicePool_dist other))
  || negb (DicePool_mod self =? DicePool_mod other).

(** A counter as the tally of a list leaves it: no key twice, no count
    below 1. *)
Definition tidy (c : Counter) : Prop :=
  NoDup (counter_keys c) /\ Forall (fun kv => 0 < snd kv) c.

(** ** Rendering (dice.py, lines 58-70 and 221-235) *)

(** [str(n)] on an integer. *)
Definition str_int (n : Z) : string := NilZero.string_of_int (Z.to_int n).

(** [Dice.__str__] (and [__repr__], which calls it). *)
Definition Dice_str (self : Dice) : string :=
  let md := start (Dice_rng self) - 1 in
  let expr := ("d" ++ str_int (stop (Dice_rng self) - md - 1))%string in
  if negb (md =? 0) then
    let expr := if 0 <? md then (expr ++ " + ")%string
                else (expr ++ " - ")%string in
    (expr ++ str_int (Z.abs md))%string
  else expr.

(** [pool[rng] = pool.get(rng, 0) + 1] on a dictionary keyed by ranges,
    which are hashed and compared by value. *)
Fixpoint dict_bump (rng : range) (pool : list (range * Z))
    : list (range * Z) :=
  match pool with
  | [] => [(rng, 0 + 1)]
  | (r, num) :: pool' =>
      if range_eqb r rng then (r, num + 1) :: pool'
      else (r, num) :: dict_bump rng pool'
  end.

(** [DicePool.__str__] (and [__repr__], which calls it). *)
Definition DicePool_str (self : DicePool) : string :=
  let pool :=
    fold_left (fun pool rng => dict_bump rng pool) (DicePool_rngs self) [] in
  let expr :=
    String.concat " + "
      (map (fun item =>
              (str_int (snd item) ++ "d" ++ str_int (stop (fst item) - 1))
                %string)
         pool) in
  if negb (DicePool_mod self =? 0) then
    let expr := if 0 <? DicePool_mod self then (expr ++ " + ")%string
                else (expr ++ " - ")%string in
    (expr ++ str_int (Z.abs (DicePool_mod self)))%string
  else expr.

(** What both renderings put after the dice for a modifier [md]. *)
Definition mod_suffix (md : Z) : string :=
  if md =? 0 then ""%string
  else
    let sign := if 0 <? md then " + "%string else " - "%string in
    (sign ++ str_int (Z.abs md))%string.

(** ** gdtools.py *)


(** ** More vocabulary *)

(** The number of ways to reach [t] with one value from each list: the
    convolution of the lists, one list at a time. *)
Fixpoint ways (ls : list (list Z)) (t : Z) : Z :=
  match ls with
  | [] => if t =? 0 then 1 else 0
  | l :: rest => sum (map (fun x => ways rest (t - x)) l)
  end.

(** [sum(g(k) * v for k, v in c.items())]. *)
Definition wsum (g : Z -> Z) (c : Counter) : Z :=
  sum (map (fun kv => g (fst kv) * snd kv) c).

(** What one constructor argument adds to the ranges and to the
    modifier. *)
Definition arg_rngs (a : arg) : list range :=
  match a with
  | ADice d => [fst (normalize_rng (inl d))]
  | ARange r => [fst (normalize_rng (inr r))]
  | _ => []
  end.

Definition arg_mod (a : arg) : Z :=
  match a with
  | AInt n => n
  | ADice d => snd (normalize_rng (inl d))
  | ARange r => snd (normalize_rng (inr r))
  | APool _ => 0
  end.

(** * Properties *)

(** ** Results *)

Lemma bind_Ok {A B : Type} (m : result A) (k : A -> result B) (b : B) :
  bind m k = Ok b -> exists a, m = Ok a /\ k a = Ok b.
Proof.
  destruct m as [a | e]; simpl; intros H.
  - exists a. split; [reflexivity | exact H].
  - discriminate H.
Qed.

(** ** Ranges *)

Lemma range_elems_length (r : range) :
  length (range_elems r) = range_len r.
Proof.
  unfold range_elems. rewrite length_map, length_seq. reflexivity.
Qed.

Lemma range_elems_In (r : range) (x : Z) :
  In x (range_elems r) <-> start r <= x < stop r.
Proof.
  unfold range_elems, range_len. rewrite in_map_iff. split.
  - intros [i [Hx Hi]]. apply in_seq in Hi. lia.
  - intros Hx. exists (Z.to_nat (x - start r)). split; [lia |].
    apply in_seq. lia.
Qed.

Lemma range_eqb_refl (r : range) : range_eqb r r = true.
Proof.
  unfold range_eqb. rewrite Nat.eqb_refl, Z.eqb_refl, orb_true_r.
  reflexivity.
Qed.

(** ** Counters *)

Lemma counter_get_incr (k t : Z) (c : Counter) :
  counter_get (counter_incr k c) t
  = counter_get c t + (if k =? t then 1 else 0).
Proof.
  induction c as [| [k' v] c IH]; simpl.
  - destruct (k =? t); reflexivity.
  - destruct (k' =? k) eqn:Ek; simpl.
    + apply Z.eqb_eq in Ek. subst k'. destruct (k =? t); lia.
    + destruct (k' =? t) eqn:Et.
      * apply Z.eqb_eq in Et. subst k'.
        rewrite Z.eqb_sym in Ek. rewrite Ek. lia.
      * exact IH.
Qed.

Lemma counter_get_fold (l : list Z) (c : Counter) (t : Z) :
  counter_get (fold_left (fun c k => counter_incr k c) l c) t
  = counter_get c t + Z.of_nat (length (filter (fun k => k =? t) l)).
Proof.
  revert c. induction l as [| k l IH]; intros c; simpl.
  - lia.
  - rewrite IH, counter_get_incr. destruct (k =? t); simpl; lia.
Qed.

Lemma counter_total_incr (k : Z) (c : Counter) :
  counter_total (counter_incr k c) = counter_total c + 1.
Proof.
  unfold counter_total.
  induction c as [| [k' v] c IH]; simpl.
  - reflexivity.
  - destruct (k' =? k); simpl; lia.
Qed.

Lemma counter_total_fold (l : list Z) (c : Counter) :
  counter_total (fold_left (fun c k => counter_incr k c) l c)
  = counter_total c + Z.of_nat (length l).
Proof.
  revert c. induction l as [| k l IH]; intros c.
  - simpl. lia.
  - cbn [fold_left length]. rewrite IH, counter_total_incr. lia.
Qed.

Lemma counter_keys_incr (k t : Z) (c : Counter) :
  In t (counter_keys (counter_incr k c)) <-> In t (counter_keys c) \/ k = t.
Proof.
  unfold counter_keys.
  induction c as [| [k' v] c IH]; simpl.
  - tauto.
  - destruct (k' =? k) eqn:Ek; simpl.
    + apply Z.eqb_eq in Ek. subst k'. tauto.
    + rewrite IH. tauto.
Qed.

Lemma counter_keys_fold (l : list Z) (c : Counter) (t : Z) :
  In t (counter_keys (fold_left (fun c k => counter_incr k c) l c))
  <-> In t (counter_keys c) \/ In t l.
Proof.
  revert c. induction l as [| k l IH]; intros c; simpl.
  - tauto.
  - rewrite IH, counter_keys_incr. tauto.
Qed.

Lemma Counter_of_get (l : list Z) (t : Z) :
  counter_get (Counter_of l) t
  = Z.of_nat (length (filter (fun k => k =? t) l)).
Proof. unfold Counter_of. rewrite counter_get_fold. reflexivity. Qed.

Lemma Counter_of_total (l : list Z) :
  counter_total (Counter_of l) = Z.of_nat (length l).
Proof. unfold Counter_of. rewrite counter_total_fold. reflexivity. Qed.

Lemma Counter_of_keys (l : list Z) (t : Z) :
  In t (counter_keys (Counter_of l)) <-> In t l.
Proof. unfold Counter_of. rewrite counter_keys_fold. simpl. tauto. Qed.

Lemma last_item_cons (x : Z) (l : list Z) : exists y, last_item (x :: l) = Ok y.
Proof.
  revert x. induction l as [| z l IH]; intros x.
  - exists x. reflexivity.
  - destruct (IH z) as [y Hy]. exists y. exact Hy.
Qed.

(** ** The product of the ranges *)

Lemma filter_map_length {A : Type} (f : A -> Z) (t : Z) (l : list A) :
  length (filter (fun k => k =? t) (map f l))
  = length (filter (fun x => f x =? t) l).
Proof.
  induction l as [| x l IH]; simpl.
  - reflexivity.
  - destruct (f x =? t); simpl; rewrite IH; reflexivity.
Qed.

Lemma flat_map_cons_length (l : list Z) (ts : list (list Z)) :
  length (flat_map (fun x => map (cons x) ts) l) = (length l * length ts)%nat.
Proof.
  induction l as [| x l IH]; simpl.
  - reflexivity.
  - rewrite length_app, length_map, IH. reflexivity.
Qed.

Lemma product_length (ls : list (list Z)) :
  Z.of_nat (length (product ls))
  = Zprod (map (fun l => Z.of_nat (length l)) ls).
Proof.
  induction ls as [| l ls IH].
  - reflexivity.
  - cbn [product map Zprod].
    rewrite <- IH, flat_map_cons_length. lia.
Qed.

Lemma Zprod_pos (ns : list Z) :
  Forall (fun n => 0 < n) ns -> 0 < Zprod ns.
Proof.
  induction 1 as [| n ns Hn _ IH]; cbn [Zprod]; [lia | nia].
Qed.

Lemma Zprod_zero (ns : list Z) :
  Forall (fun n => 0 <= n) ns -> Zprod ns <> 0 -> Forall (fun n => 0 < n) ns.
Proof.
  induction 1 as [| n ns Hn _ IH]; cbn [Zprod]; intros Hp.
  - constructor.
  - constructor.
    + destruct (Z.eq_dec n 0) as [E | E]; [subst n; simpl in Hp |]; lia.
    + apply IH. intros E. apply Hp. rewrite E. apply Z.mul_0_r.
Qed.

(** ** The constructor of a pool *)

Lemma init_finish_fields (rngs : list range) (md : Z) (p : DicePool) :
  init_finish rngs md = Ok p ->
  DicePool_rngs p = rngs /\ DicePool_mod p = md
  /\ DicePool_dist p = build_dist rngs md.
Proof.
  unfold init_finish. intros H.
  apply bind_Ok in H. destruct H as [mn [_ H]].
  apply bind_Ok in H. destruct H as [mx [_ H]].
  injection H as <-. simpl. auto.
Qed.

Lemma init_finish_total (rngs : list range) (md : Z) :
  Forall (fun r => start r < stop r) rngs ->
  exists p, init_finish rngs md = Ok p.
Proof.
  intros Hne. unfold init_finish.
  assert (Hpos : 0 < counter_total (build_dist rngs md)).
  { unfold build_dist, totals. rewrite Counter_of_total, length_map.
    rewrite product_length, map_map. apply Zprod_pos.
    apply Forall_map. eapply Forall_impl; [| exact Hne].
    intros r Hr. cbv beta in *. rewrite range_elems_length. unfold range_len. lia. }
  destruct (build_dist rngs md) as [| [k v] c] eqn:Ed.
  - unfold counter_total in Hpos. simpl in Hpos. lia.
  - destruct (last_item_cons k (map fst c)) as [y Hy].
    unfold counter_keys. cbn [map fst bind]. rewrite Hy. cbn [bind]. eauto.
Qed.

Lemma init_finish_nonempty (rngs : list range) (md : Z) (p : DicePool) :
  init_finish rngs md = Ok p ->
  Forall (fun r => start r < stop r) rngs.
Proof.
  unfold init_finish. intros H.
  apply bind_Ok in H. destruct H as [mn [Hmn _]].
  assert (Hne : counter_total (build_dist rngs md) <> 0).
  { intros Hz. unfold build_dist in *.
    rewrite Counter_of_total in Hz.
    destruct (totals rngs md); [discriminate Hmn | simpl in Hz; lia]. }
  unfold build_dist, totals in Hne.
  rewrite Counter_of_total, length_map, product_length, map_map in Hne.
  assert (H0 : Forall (fun n => 0 <= n)
                 (map (fun r => Z.of_nat (length (range_elems r))) rngs)).
  { apply Forall_map, Forall_forall. intros r _. cbv beta. lia. }
  pose proof (Zprod_zero _ H0 Hne) as Hp. rewrite Forall_map in Hp.
  eapply Forall_impl; [| exact Hp].
  intros r. cbv beta. rewrite range_elems_length. unfold range_len. lia.
Qed.

Lemma normalize_rng_start (v : Dice + range) : start (fst (normalize_rng v)) = 1.
Proof. unfold normalize_rng. simpl. lia. Qed.

Lemma normalize_rng_fixed (r : range) :
  start r = 1 -> normalize_rng (inr r) = (r, 0).
Proof.
  intros H. unfold normalize_rng. destruct r as [a b]. simpl in *. subst a.
  simpl. f_equal. f_equal. lia.
Qed.

Lemma init_step_start (st : list range * Z) (a : arg) :
  Forall (fun r => start r = 1) (fst st) ->
  Forall (fun r => start r = 1) (fst (init_step st a)).
Proof.
  destruct st as [rngs md]. intros H.
  destruct a; simpl; try exact H;
    (apply Forall_app; split; [exact H |]; constructor; [| constructor];
     simpl; lia).
Qed.

Lemma init_scan_start (args : list arg) (st : list range * Z) :
  Forall (fun r => start r = 1) (fst st) ->
  Forall (fun r => start r = 1) (fst (fold_left init_step args st)).
Proof.
  revert st. induction args as [| a args IH]; intros st H; simpl.
  - exact H.
  - apply IH, init_step_start, H.
Qed.

(** Ranges that are already canonical pass through the loop unchanged. *)
Lemma init_scan_ranges (rs acc : list range) (md : Z) (rest : list arg) :
  Forall (fun r => start r = 1) rs ->
  fold_left init_step (map ARange rs ++ rest) (acc, md)
  = fold_left init_step rest (acc ++ rs, md).
Proof.
  intros H. revert acc. induction H as [| r rs Hr _ IH]; intros acc.
  - simpl. rewrite app_nil_r. reflexivity.
  - cbn [map app fold_left init_step].
    rewrite (normalize_rng_fixed r Hr). cbn [fst snd].
    rewrite Z.add_0_r, IH, <- app_assoc. reflexivity.
Qed.

(** What holds of every pool the constructor returns. *)
Lemma DicePool_init_inv (args : list arg) (p : DicePool) :
  DicePool_init args = Ok p ->
  Forall canonical (DicePool_rngs p)
  /\ DicePool_dist p = build_dist (DicePool_rngs p) (DicePool_mod p)
  /\ init_finish (DicePool_rngs p) (DicePool_mod p) = Ok p.
Proof.
  unfold DicePool_init. intros H.
  assert (Hs : Forall (fun r => start r = 1) (fst (init_scan args))).
  { apply init_scan_start. constructor. }
  destruct (init_scan args) as [rngs md]. simpl in Hs.
  pose proof (init_finish_fields _ _ _ H) as [Hr [Hm Hd]].
  pose proof (init_finish_nonempty _ _ _ H) as Hne.
  rewrite Hr, Hm. repeat split; [| exact Hd | exact H].
  apply Forall_forall. intros r Hin.
  rewrite Forall_forall in Hs, Hne.
  specialize (Hs r Hin). specialize (Hne r Hin).
  unfold canonical. lia.
Qed.

(** Rebuilding a pool from canonical ranges and one integer. *)
Lemma DicePool_init_ranges_int (rs : list range) (k : Z) :
  Forall (fun r => start r = 1) rs ->
  DicePool_init (map ARange rs ++ [AInt k]) = init_finish rs k.
Proof.
  intros H. unfold DicePool_init, init_scan.
  rewrite (init_scan_ranges rs [] 0 [AInt k] H). reflexivity.
Qed.

Lemma canonical_start (rs : list range) :
  Forall canonical rs -> Forall (fun r => start r = 1) rs.
Proof. intros H. eapply Forall_impl; [| exact H]. intros r [Hr _]. exact Hr. Qed.

(** ** Dice built from a number of faces *)

Lemma Dice_init_rng (p1 : Z) (p2 : option Z) (d : Dice) :
  Dice_init p1 p2 = Ok d ->
  Dice_rng d = match p2 with
               | None => mkrange 1 (p1 + 1)
               | Some p2 => mkrange p1 (p2 + 1)
               end.
Proof.
  unfold Dice_init. intros H.
  apply bind_Ok in H. destruct H as [a [_ H]].
  injection H as <-. reflexivity.
Qed.

Lemma Dice_init_faces (n : Z) : n <> 0 -> exists d, Dice_init n None = Ok d.
Proof.
  intros Hn. unfold Dice_init, truediv. cbn [stop].
  destruct (n + 1 - 1 =? 0) eqn:E.
  - apply Z.eqb_eq in E. lia.
  - cbn [bind]. eauto.
Qed.

Lemma Dice_list_exists (ns : list Z) :
  Forall (fun n => 1 <= n) ns ->
  exists ds, Forall2 (fun n d => Dice_init n None = Ok d) ns ds.
Proof.
  induction 1 as [| n ns Hn _ [ds IH]].
  - exists []. constructor.
  - destruct (Dice_init_faces n) as [d Hd]; [lia |].
    exists (d :: ds). constructor; assumption.
Qed.

Lemma init_scan_dice (ns : list Z) (ds : list Dice) (acc : list range) (md : Z) :
  Forall2 (fun n d => Dice_init n None = Ok d) ns ds ->
  fold_left init_step (map ADice ds) (acc, md)
  = (acc ++ map (fun n => mkrange 1 (n + 1)) ns, md).
Proof.
  intros H. revert acc. induction H as [| n d ns ds Hd _ IH]; intros acc.
  - simpl. rewrite app_nil_r. reflexivity.
  - cbn [map fold_left init_step]. unfold normalize_rng.
    rewrite (Dice_init_rng _ _ _ Hd). cbn [start stop fst snd].
    replace (1 - (1 - 1)) with 1 by lia.
    replace (n + 1 - (1 - 1)) with (n + 1) by lia.
    replace (md + (1 - 1)) with md by lia.
    rewrite IH, <- app_assoc. reflexivity.
Qed.

(** The mass of a distribution is the product of the sizes of its ranges. *)
Lemma build_dist_total (rngs : list range) (md : Z) :
  counter_total (build_dist rngs md)
  = Zprod (map (fun r => Z.of_nat (range_len r)) rngs).
Proof.
  unfold build_dist, totals.
  rewrite Counter_of_total, length_map, product_length, map_map.
  f_equal. apply map_ext. intros r. rewrite range_elems_length. reflexivity.
Qed.

Lemma build_dist_get (rngs : list range) (md t : Z) :
  counter_get (build_dist rngs md) t
  = Z.of_nat (length (filter (fun tup => sum tup + md =? t)
                        (product (map range_elems rngs)))).
Proof.
  unfold build_dist, totals.
  rewrite Counter_of_get, filter_map_length. reflexivity.
Qed.

Lemma build_dist_keys (rngs : list range) (md t : Z) :
  In t (counter_keys (build_dist rngs md))
  <-> exists tup, In tup (product (map range_elems rngs)) /\ sum tup + md = t.
Proof.
  unfold build_dist, totals. rewrite Counter_of_keys, in_map_iff.
  split; intros [tup [H1 H2]]; exists tup; tauto.
Qed.

Lemma faces_sizes (ns : list Z) :
  Forall (fun n => 1 <= n) ns ->
  map (fun r => Z.of_nat (range_len r)) (map (fun n => mkrange 1 (n + 1)) ns)
  = ns.
Proof.
  induction 1 as [| n ns Hn _ IH]; simpl.
  - reflexivity.
  - rewrite IH. f_equal. unfold range_len. simpl. lia.
Qed.

(** C1. The distribution a pool is built with gives to every total the
    number of tuples of the product of the pool's ranges whose sum plus
    the modifier is that total, and its keys are the totals some tuple
    reaches; the multiplicities of a pool of dice with [n1..nk] faces add
    up to [n1 * ... * nk]; a pool without ranges has the distribution
    [{modifier: 1}], as has the pool built from no argument at all. *)
Theorem C1_distribution_counts_tuples :
  (forall args p, DicePool_init args = Ok p ->
     forall t,
       counter_get (DicePool_dist p) t
       = Z.of_nat
           (length
              (filter (fun tup => sum tup + DicePool_mod p =? t)
                 (product (map range_elems (DicePool_rngs p)))))
       /\ (In t (counter_keys (DicePool_dist p))
           <-> exists tup,
                 In tup (product (map range_elems (DicePool_rngs p)))
                 /\ sum tup + DicePool_mod p = t))
  /\ (forall ns, Forall (fun n => 1 <= n) ns ->
        exists ds p,
          Forall2 (fun n d => Dice_init n None = Ok d) ns ds
          /\ DicePool_init (map ADice ds) = Ok p
          /\ counter_total (DicePool_dist p) = Zprod ns)
  /\ (forall args p, DicePool_init args = Ok p ->
        DicePool_rngs p = [] ->
        DicePool_dist p = [(DicePool_mod p, 1)])
  /\ (exists p, DicePool_init [] = Ok p /\ DicePool_dist p = [(0, 1)]).
Proof.
  split; [| split; [| split]].
  - intros args p H t.
    destruct (DicePool_init_inv _ _ H) as [_ [Hd _]]. rewrite Hd.
    split; [apply build_dist_get | apply build_dist_keys].
  - intros ns Hns.
    destruct (Dice_list_exists ns Hns) as [ds Hds]. exists ds.
    unfold DicePool_init, init_scan.
    rewrite (init_scan_dice ns ds [] 0 Hds). cbn [app].
    destruct (init_finish_total (map (fun n => mkrange 1 (n + 1)) ns) 0)
      as [p Hp].
    { apply Forall_map. eapply Forall_impl; [| exact Hns].
      intros n Hn. simpl. cbv beta in Hn. lia. }
    exists p. split; [exact Hds | split; [exact Hp |]].
    destruct (init_finish_fields _ _ _ Hp) as [_ [_ Hd]].
    rewrite Hd, build_dist_total. f_equal. apply faces_sizes, Hns.
  - intros args p H Hr.
    destruct (DicePool_init_inv _ _ H) as [_ [Hd _]].
    rewrite Hd, Hr. unfold build_dist, totals. simpl.
    reflexivity.
  - eexists. split; reflexivity.
Qed.

(** C1 at [Dice(6) + Dice(6)], whose total 7 has six tuples and whose
    mass is 36, and at the pool of the bare modifier 3. *)
Lemma C1_distribution_counts_tuples_witness :
  (exists p, DicePool_init [ADice d6; ADice d6] = Ok p
             /\ counter_get (DicePool_dist p) 7 = 6)
  /\ (exists ds p,
        Forall2 (fun n d => Dice_init n None = Ok d) [6; 6] ds
        /\ DicePool_init (map ADice ds) = Ok p
        /\ counter_total (DicePool_dist p) = 36)
  /\ (exists p, DicePool_init [AInt 3] = Ok p
                /\ DicePool_dist p = [(3, 1)]).
Proof.
  destruct C1_distribution_counts_tuples as [Hget [Hmass [Hempty _]]].
  split; [| split].
  - eexists. split; [reflexivity |].
    destruct (Hget [ADice d6; ADice d6] _ eq_refl 7) as [Hc _].
    rewrite Hc. reflexivity.
  - apply (Hmass [6; 6]). repeat constructor; lia.
  - eexists. split; [reflexivity |].
    apply (Hempty [AInt 3]); reflexivity.
Defined.

(** ** Normalisation *)

Lemma normalize_rng_Dice (d : Dice) :
  normalize_rng (inl d) = normalize_rng (inr (Dice_rng d)).
Proof. reflexivity. Qed.

Lemma normalize_rng_range (a b : Z) :
  normalize_rng (inr (mkrange a b)) = (mkrange 1 (b - a + 1), a - 1).
Proof. unfold normalize_rng. simpl. f_equal. f_equal; lia. Qed.

Lemma range_elems_shift (a b : Z) :
  map (fun x => x + (a - 1)) (range_elems (mkrange 1 (b - a + 1)))
  = range_elems (mkrange a b).
Proof.
  unfold range_elems, range_len. cbn [start stop]. rewrite map_map.
  replace (b - a + 1 - 1) with (b - a) by lia.
  apply map_ext. intros i. lia.
Qed.

(** C9. A range [[a, b)] is normalised to the canonical range
    [[1, b - a + 1)] with the modifier [a - 1]; the canonical values
    shifted by the modifier are the values of the range, in order and as
    a set; and normalising the canonical range again returns it with the
    modifier 0.  Nothing here needs [a < b]. *)
Theorem C9_normalize_rng_canonical :
  forall a b : Z,
    normalize_rng (inr (mkrange a b)) = (mkrange 1 (b - a + 1), a - 1)
    /\ map (fun x => x + snd (normalize_rng (inr (mkrange a b))))
         (range_elems (fst (normalize_rng (inr (mkrange a b)))))
       = range_elems (mkrange a b)
    /\ (forall v,
          In v (range_elems (mkrange a b))
          <-> exists x,
                In x (range_elems (fst (normalize_rng (inr (mkrange a b)))))
                /\ v = x + snd (normalize_rng (inr (mkrange a b))))
    /\ normalize_rng (inr (fst (normalize_rng (inr (mkrange a b)))))
       = (fst (normalize_rng (inr (mkrange a b))), 0).
Proof.
  intros a b. rewrite normalize_rng_range. cbn [fst snd].
  split; [reflexivity |]. split; [apply range_elems_shift |]. split.
  - intros v. rewrite <- range_elems_shift, in_map_iff.
    split; intros [x [H1 H2]]; exists x; split; auto.
  - apply normalize_rng_fixed. reflexivity.
Qed.

(** ** Removing a die from a pool *)

Lemma range_in_app (x : range) (l1 l2 : list range) :
  range_in x (l1 ++ l2) = range_in x l1 || range_in x l2.
Proof. unfold range_in. apply existsb_app. Qed.

Lemma range_in_false (x : range) (l : list range) :
  range_in x l = false <-> forall r, In r l -> range_eqb r x = false.
Proof.
  unfold range_in. split.
  - intros H r Hr. destruct (range_eqb r x) eqn:E; [| reflexivity].
    rewrite <- H. symmetry. apply existsb_exists. exists r. auto.
  - intros H. destruct (existsb (fun r => range_eqb r x) l) eqn:E;
      [| reflexivity].
    apply existsb_exists in E. destruct E as [r [Hr Hx]].
    rewrite (H r Hr) in Hx. discriminate Hx.
Qed.

(** Removing a range that only the last position holds. *)
Lemma list_remove_last (x : range) (l : list range) :
  range_in x l = false -> list_remove x (l ++ [x]) = Ok l.
Proof.
  induction l as [| r l IH]; intros H.
  - simpl. rewrite range_eqb_refl. reflexivity.
  - unfold range_in in H. cbn [existsb] in H.
    apply orb_false_elim in H. destruct H as [Hr Hl].
    cbn [app list_remove]. rewrite Hr, (IH Hl). reflexivity.
Qed.

(** Removing a range that is present drops exactly one element. *)
Lemma list_remove_present (x : range) (l : list range) :
  range_in x l = true ->
  exists l', list_remove x l = Ok l'
             /\ S (length l') = length l
             /\ forall P : range -> Prop, Forall P l -> Forall P l'.
Proof.
  induction l as [| r l IH]; intros H.
  - discriminate H.
  - unfold range_in in H. cbn [existsb] in H. cbn [list_remove].
    destruct (range_eqb r x) eqn:E.
    + exists l. split; [reflexivity | split; [reflexivity |]].
      intros P HP. inversion HP. assumption.
    + simpl in H. destruct (IH H) as [l' [Hl' [Hlen HP']]].
      exists (r :: l'). rewrite Hl'. split; [reflexivity | split].
      * simpl. rewrite Hlen. reflexivity.
      * intros P HP. inversion HP; subst. constructor; auto.
Qed.

Lemma range_lt_of_canonical (rs : list range) :
  Forall canonical rs -> Forall (fun r => start r < stop r) rs.
Proof.
  intros H. eapply Forall_impl; [| exact H]. intros r [H1 H2]. lia.
Qed.

(** Adding a die to a pool: the die's canonical range goes last and its
    modifier joins the pool's. *)
Lemma DicePool_add_Dice_unfold (Q : DicePool) (d : Dice) :
  Forall canonical (DicePool_rngs Q) ->
  DicePool_add Q (ODice d)
  = init_finish (DicePool_rngs Q ++ [fst (normalize_rng (inl d))])
      (snd (normalize_rng (inl d)) + DicePool_mod Q).
Proof.
  intros Hc. unfold DicePool_add, DicePool_init, init_scan.
  rewrite (init_scan_ranges _ [] 0 _ (canonical_start _ Hc)).
  cbn [fold_left init_step app]. rewrite <- normalize_rng_Dice.
  cbn [fst snd]. rewrite Z.add_0_l. reflexivity.
Qed.

Lemma DicePool_add_Dice_total (args : list arg) (Q : DicePool) (d : Dice) :
  DicePool_init args = Ok Q ->
  start (Dice_rng d) < stop (Dice_rng d) ->
  exists P, DicePool_add Q (ODice d) = Ok P.
Proof.
  intros HQ Hd. destruct (DicePool_init_inv _ _ HQ) as [Hc _].
  rewrite (DicePool_add_Dice_unfold Q d Hc).
  apply init_finish_total. apply Forall_app. split.
  - apply range_lt_of_canonical, Hc.
  - constructor; [| constructor]. unfold normalize_rng. simpl. lia.
Qed.

(** C7. Let [Q] be a pool and [d] a die whose canonical range is not
    among the ranges of [Q].  If [P = Q + d] then [P - d] returns a pool
    with the distribution and the modifier of [Q] (it is [Q] itself). *)
Theorem C7_sub_inverts_add :
  forall (args : list arg) (Q P : DicePool) (d : Dice),
    DicePool_init args = Ok Q ->
    range_in (fst (normalize_rng (inl d))) (DicePool_rngs Q) = false ->
    DicePool_add Q (ODice d) = Ok P ->
    exists Q',
      DicePool_sub P (ODice d) = Ok Q'
      /\ DicePool_dist Q' = DicePool_dist Q
      /\ DicePool_mod Q' = DicePool_mod Q
      /\ Q' = Q.
Proof.
  intros args Q P d HQ Hnot HP.
  destruct (DicePool_init_inv _ _ HQ) as [Hc [_ Hfin]].
  rewrite (DicePool_add_Dice_unfold Q d Hc) in HP.
  destruct (init_finish_fields _ _ _ HP) as [Hr [Hm _]].
  exists Q. repeat split.
  unfold DicePool_sub.
  destruct (normalize_rng (inl d)) as [nd dm] eqn:En. cbn [fst snd] in *.
  rewrite Hr, Hm, range_in_app, orb_comm.
  unfold range_in at 1. cbn [existsb]. rewrite range_eqb_refl. cbn [orb].
  rewrite (list_remove_last nd _ Hnot). cbn [bind].
  rewrite (DicePool_init_ranges_int _ _ (canonical_start _ Hc)).
  replace (dm + DicePool_mod Q - dm) with (DicePool_mod Q) by lia.
  exact Hfin.
Qed.

(** C7 at [Q = DicePool(Dice(6), 2)] and [d = Dice(4, 12)]. *)
Lemma C7_sub_inverts_add_witness :
  exists Q P Q',
    DicePool_init [ADice d6; AInt 2] = Ok Q
    /\ DicePool_add Q (ODice d4_12) = Ok P
    /\ DicePool_sub P (ODice d4_12) = Ok Q'
    /\ DicePool_dist Q' = DicePool_dist Q
    /\ DicePool_mod Q' = DicePool_mod Q.
Proof.
  eexists. eexists.
  destruct (C7_sub_inverts_add [ADice d6; AInt 2] _ _ d4_12
              eq_refl eq_refl eq_refl) as [Q' [Hs [Hd [Hm _]]]].
  exists Q'. repeat split; [exact Hs | exact Hd | exact Hm].
Defined.

(** C8. On a pool [p] and a die [d], [p - d] raises [ValueError] exactly
    when no range of [p] equals the canonical range of [d]; when one does,
    [p - d] returns a pool that has one range fewer and the modifier of
    [p] less the die's, so the subtraction never leaves the pool as it
    was. *)
Theorem C8_sub_missing_die_raises :
  forall (args : list arg) (p : DicePool) (d : Dice),
    DicePool_init args = Ok p ->
    (DicePool_sub p (ODice d) = Raise ValueError
     <-> forall r, In r (DicePool_rngs p) ->
                   range_eqb r (fst (normalize_rng (inl d))) = false)
    /\ ((exists r, In r (DicePool_rngs p)
                   /\ range_eqb r (fst (normalize_rng (inl d))) = true) ->
        exists p',
          DicePool_sub p (ODice d) = Ok p'
          /\ S (length (DicePool_rngs p')) = length (DicePool_rngs p)
          /\ DicePool_mod p'
             = DicePool_mod p - snd (normalize_rng (inl d))).
Proof.
  intros args p d Hp.
  destruct (DicePool_init_inv _ _ Hp) as [Hc _].
  assert (Hpresent :
            range_in (fst (normalize_rng (inl d))) (DicePool_rngs p) = true ->
            exists p',
              DicePool_sub p (ODice d) = Ok p'
              /\ S (length (DicePool_rngs p')) = length (DicePool_rngs p)
              /\ DicePool_mod p'
                 = DicePool_mod p - snd (normalize_rng (inl d))).
  { intros Hin. unfold DicePool_sub.
    destruct (normalize_rng (inl d)) as [nd dm]. cbn [fst snd] in *.
    rewrite Hin.
    destruct (list_remove_present nd _ Hin) as [l' [Hl' [Hlen HP]]].
    rewrite Hl'. cbn [bind].
    pose proof (HP _ Hc) as Hc'.
    rewrite (DicePool_init_ranges_int _ _ (canonical_start _ Hc')).
    destruct (init_finish_total l' (DicePool_mod p - dm)
                (range_lt_of_canonical _ Hc')) as [p' Hp'].
    exists p'. split; [exact Hp' |].
    destruct (init_finish_fields _ _ _ Hp') as [Hr [Hm _]].
    rewrite Hr, Hm. auto. }
  split; [split |].
  - intros Hraise. apply range_in_false.
    destruct (range_in (fst (normalize_rng (inl d))) (DicePool_rngs p))
      eqn:E; [| reflexivity].
    destruct (Hpresent eq_refl) as [p' [Hok _]].
    rewrite Hok in Hraise. discriminate Hraise.
  - intros Hnone. apply range_in_false in Hnone.
    unfold DicePool_sub.
    destruct (normalize_rng (inl d)) as [nd dm]. cbn [fst] in Hnone.
    rewrite Hnone. reflexivity.
  - intros [r [Hr Heq]]. apply Hpresent.
    unfold range_in. apply existsb_exists. exists r. auto.
Qed.

(** C8 on [DicePool(Dice(6), Dice(6))]: taking [Dice(8)] away raises
    [ValueError], taking [Dice(6)] away leaves one range. *)
Lemma C8_sub_missing_die_raises_witness :
  exists p,
    DicePool_init [ADice d6; ADice d6] = Ok p
    /\ DicePool_sub p (ODice d8) = Raise ValueError
    /\ exists p', DicePool_sub p (ODice d6) = Ok p'
                  /\ length (DicePool_rngs p') = 1%nat.
Proof.
  eexists. split; [reflexivity |].
  split.
  - apply (C8_sub_missing_die_raises [ADice d6; ADice d6] _ d8 eq_refl).
    intros r Hr. simpl in Hr.
    destruct Hr as [<- | [<- | []]]; reflexivity.
  - destruct (C8_sub_missing_die_raises [ADice d6; ADice d6] _ d6 eq_refl)
      as [_ Hpres].
    destruct Hpres as [p' [Hok [Hlen _]]].
    + exists (mkrange 1 7). split; [left; reflexivity | reflexivity].
    + exists p'. split; [exact Hok |].
      simpl in Hlen. injection Hlen as Hlen. exact Hlen.
Defined.

(** * Where the code departs from its description *)

(** ** Dice: the probability queries *)

Lemma Dice_chances_raises (d : Dice) (t : Z) (cmp : Z -> Z -> bool) :
  Dice_chances d t cmp = Raise TypeError.
Proof. reflexivity. Qed.

(** C2. On every die and every integer threshold [rge], [rlt] and [rle]
    raise [TypeError]: [Dice._chances] asks a generator for its length.
    [rgt] does return, but divides by [self.max] and not by the number of
    faces, so that on [Dice(4, 12)], whose nine faces all exceed 3,
    [rgt(3)] is 3/4.  On [Dice(6)] it is the fraction of the faces:
    [rgt(3)] is 1/2.  The pool's own [_chances] sums over lists and
    returns: [DicePool(Dice(6)).rge(3)] is 2/3. *)
Theorem C2_Dice_queries_raise :
  (forall (d : Dice) (t : Z),
     Dice_rge d t = Raise TypeError
     /\ Dice_rlt d t = Raise TypeError
     /\ Dice_rle d t = Raise TypeError)
  /\ Dice_init 6 None = Ok d6
  /\ Dice_rge d6 3 = Raise TypeError
  /\ Dice_rgt d6 3 = Ok (1 # 2)
  /\ Dice_init 4 (Some 12) = Ok d4_12
  /\ Dice_rgt d4_12 3 = Ok (3 # 4)
  /\ (exists p, DicePool_init [ADice d6] = Ok p
                /\ DicePool_chances p 3 (fun a b => b <=? a) = Ok (2 # 3)).
Proof.
  split; [| repeat split].
  - intros d t. unfold Dice_rge, Dice_rlt, Dice_rle.
    rewrite !Dice_chances_raises. auto.
  - eexists. split; reflexivity.
Qed.

(** ** Dice: the derived attributes *)

(** C3. [Dice(6)] has [min = 1], [max = 6], [sides = 6] and the average
    7/2.  [Dice(4, 12)] has [min = 4] and [max = 12], but its average is
    72/12 = 6 where the mean of its faces is 8: line 53 divides the sum of
    the faces by [stop - 1], which is the number of faces only when the
    range starts at 1. *)
Theorem C3_Dice_average_of_ranged_die :
  Dice_init 6 None = Ok d6
  /\ Dice_min d6 = 1 /\ Dice_max d6 = 6 /\ Dice_sides d6 = 6
  /\ Dice_avg d6 = 7 # 2
  /\ mean_of_faces (Dice_rng d6) = Ok (7 # 2)
  /\ Dice_init 4 (Some 12) = Ok d4_12
  /\ Dice_min d4_12 = 4 /\ Dice_max d4_12 = 12
  /\ Dice_avg d4_12 = 6 # 1
  /\ mean_of_faces (Dice_rng d4_12) = Ok (8 # 1).
Proof. repeat split. Qed.

(** What the constructor needs is that [stop - 1] is not 0. *)
Lemma Dice_init_Ok_iff (p1 : Z) (p2 : option Z) :
  (exists d, Dice_init p1 p2 = Ok d)
  <-> match p2 with None => p1 | Some p2 => p2 end <> 0.
Proof.
  unfold Dice_init, truediv.
  destruct p2 as [p2 |]; cbn [stop];
    [destruct (p2 + 1 - 1 =? 0) eqn:E | destruct (p1 + 1 - 1 =? 0) eqn:E];
    cbn [bind]; split;
    try (intros [d Hd]; discriminate Hd);
    try (apply Z.eqb_eq in E; lia);
    try (apply Z.eqb_neq in E; intros; lia);
    intros _; eauto.
Qed.

(** On a die built from a number of faces the average is the mean. *)
Lemma Dice_avg_faces (n : Z) (d : Dice) :
  1 <= n -> Dice_init n None = Ok d ->
  mean_of_faces (Dice_rng d) = Ok (Dice_avg d).
Proof.
  intros Hn H. unfold Dice_init in H. cbn [stop] in H.
  apply bind_Ok in H. destruct H as [a [Ha H]]. injection H as <-.
  unfold mean_of_faces, range_len. cbn [Dice_rng Dice_avg start stop].
  rewrite <- Ha. f_equal. lia.
Qed.

(** C10. [Dice(-3, 0)], a die of the four faces -3, -2, -1, 0, is not
    built: the division of line 53 is by [stop - 1 = 0] and raises
    [ZeroDivisionError].  So does [Dice(0)], and every [Dice(p1, 0)]. *)
Theorem C10_Dice_init_divides_by_zero :
  Dice_init (-3) (Some 0) = Raise ZeroDivisionError
  /\ range_elems (mkrange (-3) (0 + 1)) = [-3; -2; -1; 0]
  /\ Dice_init 0 None = Raise ZeroDivisionError
  /\ (forall p1 : Z, Dice_init p1 (Some 0) = Raise ZeroDivisionError).
Proof. repeat split. Qed.

(** ** DicePool: rolling *)

Lemma DicePool_roll_unfold (p : DicePool) (draw n : Z) :
  Z.of_nat (length (product (map range_elems (DicePool_rngs p)))) - 1 = n ->
  0 < n ->
  DicePool_roll p draw
  = (t <- py_index (product (map range_elems (DicePool_rngs p)))
             (draw mod n) ;;
     Ok (sum t)).
Proof.
  intros Hn Hpos. unfold DicePool_roll, randrange. rewrite Hn.
  destruct (n <=? 0) eqn:E; [apply Z.leb_le in E; lia | reflexivity].
Qed.

Lemma Dice_roll_unfold (d : Dice) (draw : Z) :
  start (Dice_rng d) < stop (Dice_rng d) ->
  Dice_roll d draw
  = Ok (start (Dice_rng d)
        + draw mod (stop (Dice_rng d) - start (Dice_rng d))).
Proof.
  intros H. unfold Dice_roll, randrange2, randrange.
  destruct (stop (Dice_rng d) - start (Dice_rng d) <=? 0) eqn:E;
    [apply Z.leb_le in E; lia | reflexivity].
Qed.

(** C4. [DicePool(Dice(6), 3).roll()] returns, whatever the generator
    draws, a value between 1 and 5: the face 6 is never drawn, because
    the index is taken below [len(product) - 1], and the modifier 3 is not
    added; the draw 0 returns 1, which is outside [[4, 9]].  A pool with a
    single outcome cannot be rolled at all.  [Dice(6).roll()] does return
    a value between 1 and 6. *)
Theorem C4_pool_roll_misses_modifier :
  (exists p,
     DicePool_init [ADice d6; AInt 3] = Ok p
     /\ DicePool_min p = 4 /\ DicePool_max p = 9
     /\ DicePool_roll p 0 = Ok 1
     /\ forall draw, exists v, DicePool_roll p draw = Ok v /\ 1 <= v <= 5)
  /\ (exists p,
        DicePool_init [AInt 3] = Ok p
        /\ forall draw, DicePool_roll p draw = Raise ValueError)
  /\ (forall draw, exists v, Dice_roll d6 draw = Ok v /\ 1 <= v <= 6).
Proof.
  split; [| split].
  - eexists. split; [reflexivity |]. repeat split.
    intros draw.
    rewrite (DicePool_roll_unfold _ draw 5); [| reflexivity | lia].
    pose proof (Z.mod_pos_bound draw 5 ltac:(lia)) as Hb.
    cbn [DicePool_rngs].
    assert (Hc : draw mod 5 = 0 \/ draw mod 5 = 1 \/ draw mod 5 = 2
                 \/ draw mod 5 = 3 \/ draw mod 5 = 4) by lia.
    destruct Hc as [-> | [-> | [-> | [-> | ->]]]];
      eexists; (split; [reflexivity | simpl; lia]).
  - eexists. split; [reflexivity |]. intros draw. reflexivity.
  - intros draw. rewrite Dice_roll_unfold by (simpl; lia).
    eexists. split; [reflexivity |].
    pose proof (Z.mod_pos_bound draw 6 ltac:(lia)) as Hb.
    change (stop (Dice_rng d6) - start (Dice_rng d6)) with 6.
    change (start (Dice_rng d6)) with 1. lia.
Qed.

(** ** DicePool: equality with a die *)

(** A tuple that starts with a range differs from every tuple of
    integers. *)
Lemma tuple_eqb_ranges_ints (r : range) (rs : list range) (l : list Z) :
  tuple_eqb (map VRange (r :: rs)) (map VInt l) = false.
Proof. destruct l; reflexivity. Qed.

(** Only a pool without ranges can be equal to a die. *)
Lemma DicePool_eq_Dice_true (p : DicePool) (d : Dice) :
  DicePool_eq_Dice p d = true -> DicePool_rngs p = [].
Proof.
  unfold DicePool_eq_Dice.
  destruct (normalize_rng (inl d)) as [rng md].
  destruct (DicePool_rngs p) as [| r rs]; [reflexivity |].
  rewrite tuple_eqb_ranges_ints. discriminate.
Qed.

(** C5. [DicePool(range(1, 7)) == Dice(6)] evaluates to [False], although
    the pool holds exactly the canonical range of the die and the
    modifier 0: line 252 compares the pool's tuple of ranges with
    [tuple(rng)], the tuple of the integers 1..6.
    [DicePool(Dice(6), Dice(6)) == Dice(6)] is [False] as well. *)
Theorem C5_pool_eq_die_is_false :
  (exists p, DicePool_init [ARange (mkrange 1 7)] = Ok p
             /\ DicePool_rngs p = [fst (normalize_rng (inl d6))]
             /\ DicePool_mod p = snd (normalize_rng (inl d6))
             /\ DicePool_eq_Dice p d6 = false)
  /\ (exists p, DicePool_init [ADice d6; ADice d6] = Ok p
                /\ DicePool_eq_Dice p d6 = false).
Proof.
  split; eexists; repeat split.
Qed.

(** ** DicePool: a pool among the constructor's arguments *)

(** C6. A pool handed to the constructor is skipped by the loop of lines
    203-209: [DicePool(q)] for [q = DicePool(Dice(6), 2)] has no range
    and the modifier 0, and in general [DicePool(q)] is [DicePool()].
    Adding the pool, [DicePool() + q], does carry the range and the
    modifier of [q] over. *)
Theorem C6_pool_argument_is_skipped :
  (exists q p,
     DicePool_init [ADice d6; AInt 2] = Ok q
     /\ DicePool_rngs q = [mkrange 1 7] /\ DicePool_mod q = 2
     /\ DicePool_init [APool q] = Ok p
     /\ DicePool_rngs p = [] /\ DicePool_mod p = 0
     /\ DicePool_dist p = [(0, 1)]
     /\ exists e s,
          DicePool_init [] = Ok e
          /\ DicePool_add e (OPool q) = Ok s
          /\ DicePool_rngs s = [mkrange 1 7] /\ DicePool_mod s = 2)
  /\ (forall (q : DicePool) (before after : list arg),
        DicePool_init (before ++ APool q :: after)
        = DicePool_init (before ++ after)).
Proof.
  split.
  - eexists. eexists. split; [reflexivity |].
    repeat split. eexists. eexists. repeat split.
  - intros q before after. unfold DicePool_init, init_scan.
    rewrite !fold_left_app. cbn [fold_left].
    destruct (fold_left init_step before ([], 0)) as [rngs md].
    reflexivity.
Qed.

(** * Further properties of the code *)

(** ** Sums and rationals *)

Lemma sum_cons (x : Z) (l : list Z) : sum (x :: l) = x + sum l.
Proof. reflexivity. Qed.

Lemma sum_app (l1 l2 : list Z) : sum (l1 ++ l2) = sum l1 + sum l2.
Proof.
  induction l1 as [| x l1 IH]; simpl; [reflexivity | rewrite IH; lia].
Qed.



Lemma inject_Z_nonzero (b : Z) : b <> 0 -> ~ inject_Z b == 0.
Proof. intros Hb H. apply Hb. unfold Qeq in H. simpl in H. lia. Qed.


Lemma Ok_inj {A : Type} (a b : A) : Ok a = Ok b -> a = b.
Proof. intros H. injection H as H. exact H. Qed.

Lemma truediv_Ok (a b : Z) :
  b <> 0 -> truediv a b = Ok (Qred (inject_Z a / inject_Z b)).
Proof.
  intros Hb. unfold truediv.
  destruct (b =? 0) eqn:E; [apply Z.eqb_eq in E; contradiction | reflexivity].
Qed.

(** ** Dice: rebuilding, rolling, ordering *)

Lemma Dice_init_min_max (p1 : Z) (p2 : option Z) (d : Dice) :
  Dice_init p1 p2 = Ok d ->
  Dice_init (Dice_min d) (Some (Dice_max d)) = Ok d.
Proof.
  intros H. unfold Dice_init in *.
  apply bind_Ok in H. destruct H as [a [Ha H]]. injection H as <-.
  cbn [Dice_min Dice_max start stop] in *.
  destruct p2 as [p2 |]; cbn [start stop] in *.
  - replace (p2 + 1 - 1 + 1) with (p2 + 1) by lia.
    rewrite Ha. reflexivity.
  - replace (p1 + 1 - 1 + 1) with (p1 + 1) by lia.
    rewrite Ha. reflexivity.
Qed.

(** X1. A die rebuilt from its [min] and [max], as [Dice.__mul__] does,
    is the die itself. *)
Theorem Dice_rebuild_from_min_max :
  forall (p1 : Z) (p2 : option Z) (d : Dice),
    Dice_init p1 p2 = Ok d ->
    Dice_init (Dice_min d) (Some (Dice_max d)) = Ok d.
Proof. exact Dice_init_min_max. Qed.

Lemma Dice_rebuild_from_min_max_witness :
  Dice_init (Dice_min d4_12) (Some (Dice_max d4_12)) = Ok d4_12.
Proof.
  apply (Dice_rebuild_from_min_max 4 (Some 12) d4_12). reflexivity.
Defined.

(** X2. [Dice.roll] on a die with a face returns a value of the die's own
    range, offset included, and every such value is returned for some
    draw; on a die without faces it raises [ValueError]. *)
Theorem Dice_roll_in_range :
  forall d : Dice,
    (start (Dice_rng d) < stop (Dice_rng d) ->
     (forall draw, exists v,
         Dice_roll d draw = Ok v
         /\ start (Dice_rng d) <= v < stop (Dice_rng d))
     /\ (forall v, start (Dice_rng d) <= v < stop (Dice_rng d) ->
                   exists draw, Dice_roll d draw = Ok v))
    /\ (stop (Dice_rng d) <= start (Dice_rng d) ->
        forall draw, Dice_roll d draw = Raise ValueError).
Proof.
  intros d. split.
  - intros Hne. split.
    + intros draw. rewrite (Dice_roll_unfold d draw Hne).
      eexists. split; [reflexivity |].
      pose proof (Z.mod_pos_bound draw
                    (stop (Dice_rng d) - start (Dice_rng d))
                    ltac:(lia)).
      lia.
    + intros v Hv. exists (v - start (Dice_rng d)).
      rewrite (Dice_roll_unfold d _ Hne). f_equal.
      rewrite Z.mod_small by lia. lia.
  - intros He draw. unfold Dice_roll, randrange2, randrange.
    destruct (stop (Dice_rng d) - start (Dice_rng d) <=? 0) eqn:E;
      [reflexivity | apply Z.leb_gt in E; lia].
Qed.

Lemma Dice_roll_in_range_witness :
  (exists v, Dice_roll d4_12 100 = Ok v /\ 4 <= v < 13)
  /\ (exists draw, Dice_roll d4_12 draw = Ok 12).
Proof.
  destruct (Dice_roll_in_range d4_12) as [H _].
  destruct H as [Hin Hall]; [simpl; lia |].
  split; [apply (Hin 100) | apply (Hall 12); simpl; lia].
Defined.





(** ** gdtools.triangular *)



(** ** Weighted sums over a counter *)

Lemma wsum_incr (g : Z -> Z) (k : Z) (c : Counter) :
  wsum g (counter_incr k c) = wsum g c + g k.
Proof.
  unfold wsum. induction c as [| [k' v] c IH]; simpl.
  - lia.
  - destruct (k' =? k) eqn:E; simpl.
    + apply Z.eqb_eq in E. subst k'. lia.
    + rewrite IH. lia.
Qed.

Lemma wsum_fold (g : Z -> Z) (l : list Z) (c : Counter) :
  wsum g (fold_left (fun c k => counter_incr k c) l c)
  = wsum g c + sum (map g l).
Proof.
  revert c. induction l as [| k l IH]; intros c.
  - simpl. lia.
  - cbn [fold_left map]. rewrite IH, wsum_incr. simpl. lia.
Qed.

(** Summing [g(k) * v] over a tally is summing [g] over what was
    tallied. *)
Lemma wsum_Counter_of (g : Z -> Z) (l : list Z) :
  wsum g (Counter_of l) = sum (map g l).
Proof. unfold Counter_of. rewrite wsum_fold. reflexivity. Qed.

Lemma wsum_filter (f : Z -> bool) (c : Counter) :
  sum (map snd (filter (fun kv => f (fst kv)) c))
  = wsum (fun k => if f k then 1 else 0) c.
Proof.
  unfold wsum. induction c as [| [k v] c IH].
  - reflexivity.
  - cbn [filter map fst snd]. rewrite sum_cons, <- IH.
    destruct (f k); [cbn [map snd]; rewrite sum_cons |]; lia.
Qed.

Lemma sum_indicator (f : Z -> bool) (l : list Z) :
  sum (map (fun k => if f k then 1 else 0) l)
  = Z.of_nat (length (filter f l)).
Proof.
  induction l as [| x l IH].
  - reflexivity.
  - cbn [map filter]. rewrite sum_cons, IH.
    destruct (f x); [cbn [length]; rewrite Nat2Z.inj_succ |]; lia.
Qed.

Lemma filter_length_split {A : Type} (f g : A -> bool) (l : list A) :
  (forall x, g x = negb (f x)) ->
  (length (filter f l) + length (filter g l))%nat = length l.
Proof.
  intros H. induction l as [| x l IH]; simpl.
  - reflexivity.
  - rewrite (H x). destruct (f x); simpl; lia.
Qed.


Lemma filter_length_le {A : Type} (f : A -> bool) (l : list A) :
  (length (filter f l) <= length l)%nat.
Proof.
  induction l as [| x l IH]; simpl; [lia |].
  destruct (f x); simpl; lia.
Qed.

(** ** DicePool: the probability queries *)

(** The outcomes of a pool: one total for each tuple of the product. *)
Lemma DicePool_outcomes_nonempty (args : list arg) (p : DicePool) :
  DicePool_init args = Ok p ->
  (0 < length (totals (DicePool_rngs p) (DicePool_mod p)))%nat.
Proof.
  intros H. destruct (DicePool_init_inv _ _ H) as [Hc _].
  assert (Hpos : 0 < Z.of_nat (length (totals (DicePool_rngs p)
                                         (DicePool_mod p)))).
  { unfold totals. rewrite length_map, product_length, map_map.
    apply Zprod_pos. apply Forall_map.
    eapply Forall_impl; [| exact Hc].
    intros r [H1 H2]. cbv beta. rewrite range_elems_length.
    unfold range_len. lia. }
  lia.
Qed.

Lemma DicePool_chances_count (args : list arg) (p : DicePool) (t : Z)
    (cmp : Z -> Z -> bool) :
  DicePool_init args = Ok p ->
  DicePool_chances p t cmp
  = truediv
      (Z.of_nat (length (filter (fun k => cmp k t)
                           (totals (DicePool_rngs p) (DicePool_mod p)))))
      (Z.of_nat (length (totals (DicePool_rngs p) (DicePool_mod p)))).
Proof.
  intros H. destruct (DicePool_init_inv _ _ H) as [_ [Hd _]].
  unfold DicePool_chances. rewrite Hd. unfold build_dist.
  rewrite Counter_of_total.
  rewrite (wsum_filter (fun k => cmp k t)), wsum_Counter_of.
  rewrite sum_indicator. reflexivity.
Qed.



Lemma frac_complement (a b T : Z) :
  0 < T -> a + b = T ->
  (Qred (inject_Z a / inject_Z T) + Qred (inject_Z b / inject_Z T) == 1)%Q.
Proof.
  intros HT H. rewrite !Qred_correct.
  pose proof (inject_Z_nonzero T ltac:(lia)) as HT'.
  setoid_replace (inject_Z a / inject_Z T + inject_Z b / inject_Z T)%Q
    with ((inject_Z a + inject_Z b) / inject_Z T)%Q by (field; assumption).
  rewrite <- inject_Z_plus, H. field. assumption.
Qed.

Lemma frac_bounds (a T : Z) :
  0 < T -> 0 <= a <= T ->
  (0 <= Qred (inject_Z a / inject_Z T)
   /\ Qred (inject_Z a / inject_Z T) <= 1)%Q.
Proof.
  intros HT Ha. rewrite Qred_correct.
  assert (HTq : (0 < inject_Z T)%Q).
  { change 0%Q with (inject_Z 0). rewrite <- Zlt_Qlt. lia. }
  split.
  - apply Qle_shift_div_l; [exact HTq |].
    rewrite Qmult_0_l. change 0%Q with (inject_Z 0).
    rewrite <- Zle_Qle. lia.
  - apply Qle_shift_div_r; [exact HTq |].
    rewrite Qmult_1_l. rewrite <- Zle_Qle. lia.
Qed.

(** X6. On a pool the constructor returned the four queries return
    fractions between 0 and 1, and they are complementary:
    [rgt(t) + rle(t) = 1] and [rge(t) + rlt(t) = 1]. *)
Theorem DicePool_queries_complementary :
  forall (args : list arg) (p : DicePool) (t : Z),
    DicePool_init args = Ok p ->
    exists gt ge lt le : Q,
      DicePool_rgt p t = Ok gt /\ DicePool_rge p t = Ok ge
      /\ DicePool_rlt p t = Ok lt /\ DicePool_rle p t = Ok le
      /\ (gt + le == 1)%Q /\ (ge + lt == 1)%Q
      /\ (0 <= gt <= 1)%Q /\ (0 <= ge <= 1)%Q
      /\ (0 <= lt <= 1)%Q /\ (0 <= le <= 1)%Q.
Proof.
  intros args p t H.
  unfold DicePool_rgt, DicePool_rge, DicePool_rlt, DicePool_rle.
  rewrite !(DicePool_chances_count _ _ t _ H).
  pose proof (DicePool_outcomes_nonempty _ _ H) as Hne.
  set (l := totals (DicePool_rngs p) (DicePool_mod p)) in *.
  rewrite !truediv_Ok by lia.
  do 4 eexists. do 4 (split; [reflexivity |]).
  assert (Hb : forall f : Z -> bool,
             0 <= Z.of_nat (length (filter f l)) <= Z.of_nat (length l)).
  { intros f. pose proof (filter_length_le f l). lia. }
  split; [| split; [| repeat split; apply frac_bounds; try lia; apply Hb]].
  - apply frac_complement; [lia |].
    rewrite <- Nat2Z.inj_add. f_equal. apply filter_length_split.
    intros x. cbv beta. rewrite Z.leb_antisym. reflexivity.
  - apply frac_complement; [lia |].
    rewrite <- Nat2Z.inj_add. f_equal. apply filter_length_split.
    intros x. cbv beta. rewrite Z.ltb_antisym. reflexivity.
Qed.

Lemma DicePool_queries_complementary_witness :
  exists p gt le,
    DicePool_init [ADice d6; ADice d6; AInt 1] = Ok p
    /\ DicePool_rgt p 8 = Ok gt /\ DicePool_rle p 8 = Ok le
    /\ (gt + le == 1)%Q.
Proof.
  eexists.
  destruct (DicePool_queries_complementary
              [ADice d6; ADice d6; AInt 1] _ 8 eq_refl)
    as [gt [ge [lt [le [H1 [_ [_ [H4 [H5 _]]]]]]]]].
  exists gt, le. repeat split; assumption.
Defined.

(** ** DicePool: the average *)






(** ** The order of the keys of a tally *)

Lemma counter_keys_incr_old (k : Z) (c : Counter) :
  In k (counter_keys c) -> counter_keys (counter_incr k c) = counter_keys c.
Proof.
  unfold counter_keys. induction c as [| [k' v] c IH]; simpl; intros H.
  - contradiction.
  - destruct (k' =? k) eqn:E; simpl.
    + reflexivity.
    + f_equal. apply IH. destruct H as [H | H]; [| exact H].
      apply Z.eqb_neq in E. contradiction.
Qed.

Lemma counter_keys_incr_new (k : Z) (c : Counter) :
  ~ In k (counter_keys c) ->
  counter_keys (counter_incr k c) = counter_keys c ++ [k].
Proof.
  unfold counter_keys. induction c as [| [k' v] c IH]; simpl; intros H.
  - reflexivity.
  - destruct (k' =? k) eqn:E; simpl.
    + apply Z.eqb_eq in E. tauto.
    + f_equal. apply IH. tauto.
Qed.

Lemma counter_keys_fold_prefix (l : list Z) (c : Counter) :
  exists rest,
    counter_keys (fold_left (fun c k => counter_incr k c) l c)
    = counter_keys c ++ rest.
Proof.
  revert c. induction l as [| k l IH]; intros c.
  - exists []. rewrite app_nil_r. reflexivity.
  - cbn [fold_left]. destruct (IH (counter_incr k c)) as [rest Hr].
    rewrite Hr.
    destruct (in_dec Z.eq_dec k (counter_keys c)) as [Hin | Hnot].
    + rewrite (counter_keys_incr_old k c Hin). eauto.
    + rewrite (counter_keys_incr_new k c Hnot), <- app_assoc. eauto.
Qed.

(** The first key of a tally is the first element tallied. *)
Lemma Counter_of_first_key (x : Z) (l : list Z) :
  exists rest, counter_keys (Counter_of (x :: l)) = x :: rest.
Proof.
  unfold Counter_of. cbn [fold_left counter_incr].
  destruct (counter_keys_fold_prefix l [(x, 1)]) as [rest Hr].
  exists rest. exact Hr.
Qed.

Lemma last_item_app (l : list Z) (x : Z) : last_item (l ++ [x]) = Ok x.
Proof.
  induction l as [| y l IH].
  - reflexivity.
  - cbn [app last_item]. rewrite IH.
    destruct (l ++ [x]) eqn:E; [| reflexivity].
    destruct l; discriminate E.
Qed.

(** The last key of a tally is the last element tallied, when it was not
    met before. *)
Lemma Counter_of_last_key (l : list Z) (x : Z) :
  ~ In x l -> last_item (counter_keys (Counter_of (l ++ [x]))) = Ok x.
Proof.
  intros H. unfold Counter_of. rewrite fold_left_app. cbn [fold_left].
  rewrite counter_keys_incr_new.
  - apply last_item_app.
  - intros Hin. apply H. apply (Counter_of_keys l x). exact Hin.
Qed.

(** ** The first and the last tuple of a product *)

(** When every list ends with its largest value, the product ends with
    the tuple of these values, whose sum no other tuple reaches. *)
Lemma product_last (ls : list (list Z)) (ms : list Z) :
  Forall2 (fun l m => exists f, l = f ++ [m] /\ Forall (fun x => x < m) f)
    ls ms ->
  exists F, product ls = F ++ [ms] /\ Forall (fun t => sum t < sum ms) F.
Proof.
  induction 1 as [| l m ls ms [f [Hl Hf]] _ [F [HF HFs]]].
  - exists []. split; [reflexivity | constructor].
  - subst l. cbn [product]. rewrite flat_map_app. cbn [flat_map].
    rewrite app_nil_r, HF, map_app. cbn [map].
    exists (flat_map (fun x => map (cons x) (F ++ [ms])) f
            ++ map (cons m) F).
    split; [rewrite app_assoc; reflexivity |].
    apply Forall_app. split.
    + apply Forall_forall. intros t Ht.
      apply in_flat_map in Ht. destruct Ht as [x [Hx Ht]].
      apply in_map_iff in Ht. destruct Ht as [u [<- Hu]].
      rewrite Forall_forall in Hf, HFs. specialize (Hf x Hx).
      rewrite !sum_cons. apply in_app_or in Hu.
      destruct Hu as [Hu | [<- | []]]; [specialize (HFs u Hu) |]; lia.
    + apply Forall_forall. intros t Ht.
      apply in_map_iff in Ht. destruct Ht as [u [<- Hu]].
      rewrite Forall_forall in HFs. specialize (HFs u Hu).
      rewrite !sum_cons. lia.
Qed.

(** When every list has a first value, the product starts with the tuple
    of these values. *)
Lemma product_first (ls : list (list Z)) (hs : list Z) :
  Forall2 (fun l h => exists tl, l = h :: tl) ls hs ->
  exists T, product ls = hs :: T.
Proof.
  induction 1 as [| l h ls hs [tl Hl] _ [T HT]].
  - exists []. reflexivity.
  - subst l. cbn [product flat_map]. rewrite HT. cbn [map app]. eauto.
Qed.

(** Every tuple of the product takes its values in the lists, in
    order. *)
Lemma product_In (ls : list (list Z)) (t : list Z) :
  In t (product ls) -> Forall2 (fun x l => In x l) t ls.
Proof.
  revert t. induction ls as [| l ls IH]; intros t Ht.
  - destruct Ht as [<- | []]. constructor.
  - cbn [product] in Ht. apply in_flat_map in Ht.
    destruct Ht as [x [Hx Ht]]. apply in_map_iff in Ht.
    destruct Ht as [u [<- Hu]]. constructor; [exact Hx | apply IH, Hu].
Qed.

Lemma range_elems_last (r : range) :
  start r < stop r ->
  exists f, range_elems r = f ++ [stop r - 1]
            /\ Forall (fun x => x < stop r - 1) f.
Proof.
  intros H. unfold range_elems, range_len.
  replace (Z.to_nat (stop r - start r))
    with (S (Z.to_nat (stop r - start r - 1))) by lia.
  rewrite seq_S, map_app. cbn [map Nat.add].
  eexists. split.
  - f_equal. f_equal. lia.
  - apply Forall_forall. intros x Hx. apply in_map_iff in Hx.
    destruct Hx as [i [<- Hi]]. apply in_seq in Hi. lia.
Qed.

Lemma range_elems_first (r : range) :
  start r < stop r -> exists tl, range_elems r = start r :: tl.
Proof.
  intros H. unfold range_elems, range_len.
  replace (Z.to_nat (stop r - start r))
    with (S (Z.to_nat (stop r - start r - 1))) by lia.
  cbn [seq map]. eexists. f_equal. lia.
Qed.

Lemma Forall2_map_same {A B C : Type} (R : B -> C -> Prop)
    (f : A -> B) (g : A -> C) (l : list A) :
  Forall (fun x => R (f x) (g x)) l -> Forall2 R (map f l) (map g l).
Proof.
  induction 1; simpl; constructor; assumption.
Qed.

(** The tuples of canonical ranges: where they start, where they end and
    between which sums they lie. *)
Lemma product_canonical (rngs : list range) :
  Forall canonical rngs ->
  (exists T, product (map range_elems rngs) = map start rngs :: T)
  /\ (exists F,
        product (map range_elems rngs)
        = F ++ [map (fun r => stop r - 1) rngs]
        /\ Forall (fun t => sum t < sum (map (fun r => stop r - 1) rngs)) F)
  /\ sum (map start rngs) = Z.of_nat (length rngs)
  /\ forall t, In t (product (map range_elems rngs)) ->
               Z.of_nat (length rngs) <= sum t
               <= sum (map (fun r => stop r - 1) rngs).
Proof.
  intros Hc. split; [| split; [| split]].
  - apply product_first, Forall2_map_same.
    eapply Forall_impl; [| exact Hc].
    intros r [H1 H2]. apply range_elems_first. lia.
  - apply product_last, Forall2_map_same.
    eapply Forall_impl; [| exact Hc].
    intros r [H1 H2]. apply range_elems_last. lia.
  - induction Hc as [| r rngs [H1 H2] _ IH].
    + reflexivity.
    + cbn [map length]. rewrite sum_cons, IH, Nat2Z.inj_succ. lia.
  - intros t Ht. apply product_In in Ht.
    revert t Ht. induction Hc as [| r rngs [H1 H2] _ IH]; intros t Ht.
    + inversion Ht. simpl. lia.
    + cbn [map] in Ht. inversion Ht as [| x l u ls Hx Hu]; subst.
      specialize (IH u Hu). apply range_elems_In in Hx.
      cbn [map length]. rewrite !sum_cons, Nat2Z.inj_succ. lia.
Qed.

(** ** DicePool: the extreme totals *)

Lemma init_finish_minmax (rngs : list range) (md : Z) (p : DicePool) :
  init_finish rngs md = Ok p ->
  (exists ks, counter_keys (build_dist rngs md) = DicePool_min p :: ks)
  /\ last_item (counter_keys (build_dist rngs md)) = Ok (DicePool_max p)
  /\ DicePool_range p = mkrange (DicePool_min p) (DicePool_max p).
Proof.
  unfold init_finish. intros H.
  apply bind_Ok in H. destruct H as [mn [Hmn H]].
  apply bind_Ok in H. destruct H as [mx [Hmx H]].
  apply Ok_inj in H. subst p. cbn [DicePool_min DicePool_max DicePool_range].
  split; [| split; [exact Hmx | reflexivity]].
  destruct (counter_keys (build_dist rngs md)) as [| k ks];
    [discriminate Hmn |].
  apply Ok_inj in Hmn. subst k. eauto.
Qed.

Lemma DicePool_extremes :
  forall (args : list arg) (p : DicePool),
    DicePool_init args = Ok p ->
    DicePool_min p = Z.of_nat (length (DicePool_rngs p)) + DicePool_mod p
    /\ DicePool_max p
       = sum (map (fun r => stop r - 1) (DicePool_rngs p)) + DicePool_mod p
    /\ In (DicePool_min p) (counter_keys (DicePool_dist p))
    /\ In (DicePool_max p) (counter_keys (DicePool_dist p))
    /\ forall t, In t (counter_keys (DicePool_dist p)) ->
                 DicePool_min p <= t <= DicePool_max p.
Proof.
  intros args p H.
  destruct (DicePool_init_inv _ _ H) as [Hc [Hd Hfin]].
  destruct (init_finish_minmax _ _ _ Hfin) as [[ks Hks] [Hlast _]].
  destruct (product_canonical _ Hc) as [[T HT] [[F [HF HFs]] [Hst Hb]]].
  assert (Hmin : DicePool_min p
                 = Z.of_nat (length (DicePool_rngs p)) + DicePool_mod p).
  { unfold build_dist, totals in Hks. rewrite HT in Hks. cbn [map] in Hks.
    destruct (Counter_of_first_key
                (sum (map start (DicePool_rngs p)) + DicePool_mod p)
                (map (fun result => sum result + DicePool_mod p) T))
      as [rest Hrest].
    rewrite Hrest in Hks. injection Hks as Hk _. rewrite <- Hk, Hst.
    reflexivity. }
  assert (Hmax : DicePool_max p
                 = sum (map (fun r => stop r - 1) (DicePool_rngs p))
                   + DicePool_mod p).
  { unfold build_dist, totals in Hlast. rewrite HF, map_app in Hlast.
    cbn [map] in Hlast. rewrite Counter_of_last_key in Hlast.
    - apply Ok_inj in Hlast. symmetry. exact Hlast.
    - intros Hin. apply in_map_iff in Hin. destruct Hin as [t [Ht Hin]].
      rewrite Forall_forall in HFs. specialize (HFs t Hin). lia. }
  assert (Hkeys : forall t, In t (counter_keys (DicePool_dist p)) ->
                            DicePool_min p <= t <= DicePool_max p).
  { intros t Ht. rewrite Hd in Ht. apply build_dist_keys in Ht.
    destruct Ht as [tup [Hin <-]]. specialize (Hb tup Hin).
    rewrite Hmin, Hmax. lia. }
  split; [exact Hmin |]. split; [exact Hmax |].
  split; [| split; [| exact Hkeys]].
  - rewrite Hd, Hks. left. reflexivity.
  - rewrite Hd, Hmax. apply build_dist_keys.
    exists (map (fun r => stop r - 1) (DicePool_rngs p)).
    split; [rewrite HF; apply in_or_app; right; left |]; reflexivity.
Qed.

(** X8. The [min] and [max] of a pool the constructor returned, read off
    the first and the last key of the distribution, are the least and the
    greatest total: [min] is the modifier plus the number of ranges,
    [max] the modifier plus the largest value of each range, and every
    key of the distribution lies between them. *)
Theorem DicePool_min_max_are_extremes :
  forall (args : list arg) (p : DicePool),
    DicePool_init args = Ok p ->
    DicePool_min p = Z.of_nat (length (DicePool_rngs p)) + DicePool_mod p
    /\ DicePool_max p
       = sum (map (fun r => stop r - 1) (DicePool_rngs p)) + DicePool_mod p
    /\ In (DicePool_min p) (counter_keys (DicePool_dist p))
    /\ In (DicePool_max p) (counter_keys (DicePool_dist p))
    /\ forall t, In t (counter_keys (DicePool_dist p)) ->
                 DicePool_min p <= t <= DicePool_max p.
Proof. exact DicePool_extremes. Qed.

Lemma DicePool_min_max_are_extremes_witness :
  exists p,
    DicePool_init [ADice d6; ADice d4_12; AInt 2] = Ok p
    /\ DicePool_min p = 7 /\ DicePool_max p = 20.
Proof.
  eexists. split; [reflexivity |].
  destruct (DicePool_min_max_are_extremes
              [ADice d6; ADice d4_12; AInt 2] _ eq_refl)
    as [Hmin [Hmax _]].
  split; [rewrite Hmin | rewrite Hmax]; reflexivity.
Defined.

(** ** DicePool: rolling, in general *)

(** X9. [DicePool.roll] on a pool the constructor returned: with a single
    outcome it raises [ValueError]; with more it returns the sum of a
    tuple other than the last, without the modifier, so that the result
    plus the modifier is at least [min] and less than [max]. *)
Theorem DicePool_roll_never_max :
  forall (args : list arg) (p : DicePool),
    DicePool_init args = Ok p ->
    (counter_total (DicePool_dist p) = 1 ->
     forall draw, DicePool_roll p draw = Raise ValueError)
    /\ (1 < counter_total (DicePool_dist p) ->
        forall draw, exists v,
          DicePool_roll p draw = Ok v
          /\ DicePool_min p <= v + DicePool_mod p < DicePool_max p).
Proof.
  intros args p H.
  destruct (DicePool_init_inv _ _ H) as [Hc [Hd _]].
  destruct (DicePool_extremes _ _ H) as [Hmin [Hmax _]].
  destruct (product_canonical _ Hc) as [_ [[F [HF HFs]] [_ Hb]]].
  assert (Hmass : counter_total (DicePool_dist p)
                  = Z.of_nat (length F) + 1).
  { rewrite Hd. unfold build_dist, totals.
    rewrite Counter_of_total, length_map, HF, length_app. simpl. lia. }
  split.
  - intros H1 draw. unfold DicePool_roll, randrange.
    rewrite HF, length_app. cbn [length].
    replace (Z.of_nat (length F + 1) - 1) with 0 by lia.
    reflexivity.
  - intros H1 draw.
    rewrite (DicePool_roll_unfold p draw (Z.of_nat (length F)));
      [| rewrite HF, length_app; simpl; lia | lia].
    pose proof (Z.mod_pos_bound draw (Z.of_nat (length F)) ltac:(lia))
      as Hi.
    unfold py_index. rewrite HF.
    rewrite nth_error_app1 by lia.
    destruct (nth_error F (Z.to_nat (draw mod Z.of_nat (length F))))
      as [t |] eqn:E.
    + cbn [bind]. exists (sum t). split; [reflexivity |].
      apply nth_error_In in E.
      rewrite Forall_forall in HFs. specialize (HFs t E).
      assert (Hin : In t (product (map range_elems (DicePool_rngs p))))
        by (rewrite HF; apply in_or_app; left; exact E).
      specialize (Hb t Hin). rewrite Hmin, Hmax. lia.
    + apply nth_error_None in E. lia.
Qed.

Lemma DicePool_roll_never_max_witness :
  exists p,
    DicePool_init [ADice d6; ADice d6] = Ok p
    /\ exists v, DicePool_roll p 34 = Ok v /\ 2 <= v + 0 < 12.
Proof.
  eexists. split; [reflexivity |].
  destruct (DicePool_roll_never_max [ADice d6; ADice d6] _ eq_refl)
    as [_ Hroll].
  apply (Hroll ltac:(vm_compute; reflexivity) 34).
Defined.

(** ** Counting tuples by convolution *)

Lemma sum_map_zero {A : Type} (l : list A) : sum (map (fun _ => 0) l) = 0.
Proof. induction l as [| x l IH]; [reflexivity | cbn [map]; rewrite sum_cons, IH; reflexivity]. Qed.

Lemma sum_map_plus {A : Type} (f g : A -> Z) (l : list A) :
  sum (map (fun x => f x + g x) l) = sum (map f l) + sum (map g l).
Proof.
  induction l as [| x l IH]; [reflexivity |].
  cbn [map]. rewrite !sum_cons, IH. lia.
Qed.

Lemma sum_map_ext {A : Type} (f g : A -> Z) (l : list A) :
  (forall x, f x = g x) -> sum (map f l) = sum (map g l).
Proof. intros H. f_equal. apply map_ext, H. Qed.

(** Two nested sums can be taken in either order. *)
Lemma sum_exchange {A B : Type} (f : A -> B -> Z) (la : list A)
    (lb : list B) :
  sum (map (fun b => sum (map (fun a => f a b) la)) lb)
  = sum (map (fun a => sum (map (fun b => f a b) lb)) la).
Proof.
  induction lb as [| b lb IH].
  - cbn [map]. rewrite sum_map_zero. reflexivity.
  - cbn [map]. rewrite sum_cons, IH, <- sum_map_plus.
    apply sum_map_ext. intros a. rewrite sum_cons. reflexivity.
Qed.

Lemma sum_map_flat_map {A B : Type} (g : B -> Z) (h : A -> list B)
    (l : list A) :
  sum (map g (flat_map h l)) = sum (map (fun x => sum (map g (h x))) l).
Proof.
  induction l as [| x l IH]; [reflexivity |].
  cbn [flat_map map]. rewrite map_app, sum_app, sum_cons, IH. reflexivity.
Qed.

Lemma sum_Permutation (l l' : list Z) : Permutation l l' -> sum l = sum l'.
Proof.
  induction 1 as [| x l l' _ IH | x y l | l l' l'' _ IH1 _ IH2].
  - reflexivity.
  - rewrite !sum_cons, IH. reflexivity.
  - rewrite !sum_cons. lia.
  - rewrite IH1. exact IH2.
Qed.

(** The tuples of the product whose sum is [t] are as many as the
    convolution says. *)
Lemma sum_indicator_gen {A : Type} (f : A -> bool) (l : list A) :
  sum (map (fun x => if f x then 1 else 0) l)
  = Z.of_nat (length (filter f l)).
Proof.
  induction l as [| x l IH].
  - reflexivity.
  - cbn [map filter]. rewrite sum_cons, IH.
    destruct (f x); [cbn [length]; rewrite Nat2Z.inj_succ |]; lia.
Qed.

Lemma ways_count (ls : list (list Z)) (t : Z) :
  Z.of_nat (length (filter (fun tup => sum tup =? t) (product ls)))
  = ways ls t.
Proof.
  revert t. induction ls as [| l ls IH]; intros t.
  - cbn [product filter ways]. change (sum []) with 0.
    rewrite (Z.eqb_sym 0 t). destruct (t =? 0); reflexivity.
  - cbn [product ways]. rewrite <- sum_indicator_gen.
    rewrite sum_map_flat_map. apply sum_map_ext. intros x.
    rewrite map_map, <- IH, <- sum_indicator_gen.
    apply sum_map_ext. intros u. rewrite sum_cons.
    destruct (x + sum u =? t) eqn:E1, (sum u =? t - x) eqn:E2;
      try reflexivity;
      [apply Z.eqb_eq in E1; apply Z.eqb_neq in E2
      | apply Z.eqb_neq in E1; apply Z.eqb_eq in E2]; lia.
Qed.

(** The distribution, read as a convolution of the ranges. *)
Lemma build_dist_ways (rngs : list range) (md t : Z) :
  counter_get (build_dist rngs md) t = ways (map range_elems rngs) (t - md).
Proof.
  rewrite build_dist_get, <- ways_count. do 2 f_equal.
  apply filter_ext. intros u.
  destruct (sum u + md =? t) eqn:E1, (sum u =? t - md) eqn:E2;
    try reflexivity;
    [apply Z.eqb_eq in E1; apply Z.eqb_neq in E2
    | apply Z.eqb_neq in E1; apply Z.eqb_eq in E2]; lia.
Qed.

(** The convolution does not depend on the order of the lists. *)
Lemma ways_Permutation (ls ls' : list (list Z)) :
  Permutation ls ls' -> forall t, ways ls t = ways ls' t.
Proof.
  induction 1 as [| l ls ls' _ IH | l1 l2 ls | ls ls' ls'' _ IH1 _ IH2];
    intros t.
  - reflexivity.
  - cbn [ways]. apply sum_map_ext. intros x. apply IH.
  - cbn [ways].
    rewrite (sum_exchange (fun a b => ways ls (t - b - a)) l2 l1).
    apply sum_map_ext. intros a. apply sum_map_ext. intros b.
    f_equal. lia.
  - rewrite IH1. apply IH2.
Qed.

(** The convolution of two groups of lists. *)
Lemma ways_app (ls1 ls2 : list (list Z)) (t : Z) :
  ways (ls1 ++ ls2) t
  = sum (map (fun u => ways ls2 (t - sum u)) (product ls1)).
Proof.
  revert t. induction ls1 as [| l ls1 IH]; intros t.
  - cbn [app product map]. rewrite sum_cons. change (sum []) with 0.
    rewrite Z.sub_0_r. lia.
  - cbn [app ways product]. rewrite sum_map_flat_map.
    apply sum_map_ext. intros x. rewrite IH, map_map.
    apply sum_map_ext. intros u. rewrite sum_cons. f_equal. lia.
Qed.

(** ** The constructor's loop, argument by argument *)

Lemma init_scan_decompose (args : list arg) (acc : list range) (md : Z) :
  fold_left init_step args (acc, md)
  = (acc ++ flat_map arg_rngs args, md + sum (map arg_mod args)).
Proof.
  revert acc md. induction args as [| a args IH]; intros acc md.
  - simpl. rewrite app_nil_r, Z.add_0_r. reflexivity.
  - cbn [fold_left flat_map map]. rewrite sum_cons.
    destruct a; cbn [init_step arg_rngs arg_mod]; rewrite IH;
      cbn [app]; rewrite <- ?app_assoc; cbn [app]; f_equal; lia.
Qed.

Lemma DicePool_init_decompose (args : list arg) :
  DicePool_init args
  = init_finish (flat_map arg_rngs args) (sum (map arg_mod args)).
Proof.
  unfold DicePool_init, init_scan. rewrite init_scan_decompose. reflexivity.
Qed.

(** ** DicePool: the order of the arguments *)

Lemma build_dist_Permutation (rngs rngs' : list range) (md t : Z) :
  Permutation rngs rngs' ->
  counter_get (build_dist rngs md) t = counter_get (build_dist rngs' md) t.
Proof.
  intros H. rewrite !build_dist_ways.
  apply ways_Permutation, Permutation_map, H.
Qed.

(** X10. The order of the constructor's arguments does not matter to the
    distribution: from a permutation of the arguments of a pool the
    constructor returns a pool with the same modifier, the same
    multiplicity for every total and the same [min] and [max]. *)
Theorem DicePool_init_commutative :
  forall (args args' : list arg) (p : DicePool),
    Permutation args args' ->
    DicePool_init args = Ok p ->
    exists p',
      DicePool_init args' = Ok p'
      /\ Permutation (DicePool_rngs p) (DicePool_rngs p')
      /\ DicePool_mod p' = DicePool_mod p
      /\ (forall t, counter_get (DicePool_dist p') t
                    = counter_get (DicePool_dist p) t)
      /\ DicePool_min p' = DicePool_min p
      /\ DicePool_max p' = DicePool_max p.
Proof.
  intros args args' p Hperm H.
  pose proof (DicePool_extremes _ _ H) as [Hmin [Hmax _]].
  pose proof H as H0. rewrite DicePool_init_decompose in H0.
  destruct (init_finish_fields _ _ _ H0) as [Hr [Hm Hd]].
  pose proof (init_finish_nonempty _ _ _ H0) as Hne.
  assert (Hpr : Permutation (flat_map arg_rngs args)
                  (flat_map arg_rngs args'))
    by (apply Permutation_flat_map, Hperm).
  assert (Hpm : sum (map arg_mod args) = sum (map arg_mod args'))
    by (apply sum_Permutation, Permutation_map, Hperm).
  destruct (init_finish_total (flat_map arg_rngs args')
              (sum (map arg_mod args')))
    as [p' Hp'].
  { eapply Permutation_Forall; [exact Hpr | exact Hne]. }
  assert (H' : DicePool_init args' = Ok p')
    by (rewrite DicePool_init_decompose; exact Hp').
  pose proof (DicePool_extremes _ _ H') as [Hmin' [Hmax' _]].
  destruct (init_finish_fields _ _ _ Hp') as [Hr' [Hm' Hd']].
  assert (Hprr : Permutation (DicePool_rngs p) (DicePool_rngs p'))
    by (rewrite Hr, Hr'; exact Hpr).
  exists p'. split; [exact H' |]. split; [exact Hprr |].
  split; [rewrite Hm, Hm'; symmetry; exact Hpm |].
  split; [| split].
  - intros t. rewrite Hd, Hd', Hpm.
    apply build_dist_Permutation. symmetry. exact Hpr.
  - rewrite Hmin, Hmin', Hm, Hm', Hpm.
    rewrite (Permutation_length Hprr). reflexivity.
  - rewrite Hmax, Hmax', Hm, Hm', Hpm. f_equal.
    symmetry. apply sum_Permutation, Permutation_map, Hprr.
Qed.

Lemma DicePool_init_commutative_witness :
  exists p p',
    DicePool_init [ADice d6; AInt 2; ADice d8] = Ok p
    /\ DicePool_init [ADice d8; ADice d6; AInt 2] = Ok p'
    /\ counter_get (DicePool_dist p') 9 = counter_get (DicePool_dist p) 9.
Proof.
  assert (Hp : exists p, DicePool_init [ADice d6; AInt 2; ADice d8] = Ok p)
    by (eexists; reflexivity).
  destruct Hp as [p Hp].
  assert (Hperm : Permutation [ADice d6; AInt 2; ADice d8]
                    [ADice d8; ADice d6; AInt 2]).
  { apply Permutation_sym.
    apply (Permutation_cons_app [ADice d6; AInt 2] [] (ADice d8)).
    apply Permutation_refl. }
  destruct (DicePool_init_commutative _ _ p Hperm Hp)
    as [p' [Hp' [_ [_ [Hget _]]]]].
  exists p, p'. split; [exact Hp | split; [exact Hp' | apply Hget]].
Defined.

(** ** DicePool: adding and subtracting an integer *)

Lemma DicePool_add_int_unfold (Q : DicePool) (n : Z) :
  Forall canonical (DicePool_rngs Q) ->
  DicePool_add Q (OInt n)
  = init_finish (DicePool_rngs Q) (DicePool_mod Q + n).
Proof.
  intros Hc. unfold DicePool_add.
  apply DicePool_init_ranges_int, canonical_start, Hc.
Qed.

Lemma DicePool_sub_int_unfold (Q : DicePool) (n : Z) :
  Forall canonical (DicePool_rngs Q) ->
  DicePool_sub Q (OInt n)
  = init_finish (DicePool_rngs Q) (DicePool_mod Q - n).
Proof.
  intros Hc. unfold DicePool_sub.
  apply DicePool_init_ranges_int, canonical_start, Hc.
Qed.

(** X11. Adding an integer [n] to a pool the constructor returned gives a
    pool with the same ranges whose distribution, [min] and [max] are
    those of the pool moved by [n]; subtracting [n] from the sum gives
    the pool back, and subtracting [n] is adding [-n]. *)
Theorem DicePool_add_int_shifts :
  forall (args : list arg) (Q : DicePool) (n : Z),
    DicePool_init args = Ok Q ->
    exists P,
      DicePool_add Q (OInt n) = Ok P
      /\ DicePool_rngs P = DicePool_rngs Q
      /\ DicePool_mod P = DicePool_mod Q + n
      /\ (forall t, counter_get (DicePool_dist P) (t + n)
                    = counter_get (DicePool_dist Q) t)
      /\ DicePool_min P = DicePool_min Q + n
      /\ DicePool_max P = DicePool_max Q + n
      /\ DicePool_sub P (OInt n) = Ok Q
      /\ DicePool_sub Q (OInt n) = DicePool_add Q (OInt (- n)).
Proof.
  intros args Q n H.
  destruct (DicePool_init_inv _ _ H) as [Hc [Hd Hfin]].
  pose proof (DicePool_extremes _ _ H) as [Hmin [Hmax _]].
  destruct (init_finish_total (DicePool_rngs Q) (DicePool_mod Q + n)
              (range_lt_of_canonical _ Hc)) as [P HP].
  assert (Hadd : DicePool_add Q (OInt n) = Ok P)
    by (rewrite DicePool_add_int_unfold; assumption).
  assert (HPinit : DicePool_init (map ARange (DicePool_rngs Q)
                                    ++ [AInt (DicePool_mod Q + n)]) = Ok P)
    by exact Hadd.
  pose proof (DicePool_extremes _ _ HPinit)
    as [HminP [HmaxP _]].
  destruct (init_finish_fields _ _ _ HP) as [Hr [Hm HdP]].
  exists P. split; [exact Hadd |]. split; [exact Hr |]. split; [exact Hm |].
  split; [| split; [| split; [| split]]].
  - intros t. rewrite HdP, Hd, !build_dist_ways. f_equal. lia.
  - rewrite HminP, Hmin, Hr, Hm. lia.
  - rewrite HmaxP, Hmax, Hr, Hm. lia.
  - rewrite DicePool_sub_int_unfold by (rewrite Hr; exact Hc).
    rewrite Hr, Hm.
    replace (DicePool_mod Q + n - n) with (DicePool_mod Q) by lia.
    exact Hfin.
  - rewrite DicePool_sub_int_unfold, DicePool_add_int_unfold by exact Hc.
    f_equal.
Qed.

Lemma DicePool_add_int_shifts_witness :
  exists Q P,
    DicePool_init [ADice d6; ADice d6] = Ok Q
    /\ DicePool_add Q (OInt 5) = Ok P
    /\ counter_get (DicePool_dist P) (7 + 5) = 6
    /\ DicePool_sub P (OInt 5) = Ok Q.
Proof.
  eexists.
  destruct (DicePool_add_int_shifts [ADice d6; ADice d6] _ 5 eq_refl)
    as [P [Hadd [_ [_ [Hget [_ [_ [Hsub _]]]]]]]].
  exists P. split; [reflexivity | split; [exact Hadd | split]].
  - rewrite Hget. reflexivity.
  - exact Hsub.
Defined.

(** ** DicePool: adding a pool *)

Lemma canonical_app (l1 l2 : list range) :
  Forall canonical l1 -> Forall canonical l2 -> Forall canonical (l1 ++ l2).
Proof. intros H1 H2. apply Forall_app. split; assumption. Qed.

(** X12. The sum of two pools the constructor returned is a pool of the
    ranges of the first followed by those of the second, with the sum of
    the modifiers; its distribution is the convolution of the two
    distributions, its mass the product of the masses, and the sum taken
    the other way round has the same multiplicities. *)
Theorem DicePool_add_pool_convolves :
  forall (args1 args2 : list arg) (P Q : DicePool),
    DicePool_init args1 = Ok P ->
    DicePool_init args2 = Ok Q ->
    exists R R',
      DicePool_add P (OPool Q) = Ok R
      /\ DicePool_add Q (OPool P) = Ok R'
      /\ DicePool_rngs R = DicePool_rngs P ++ DicePool_rngs Q
      /\ DicePool_mod R = DicePool_mod P + DicePool_mod Q
      /\ (forall t,
            counter_get (DicePool_dist R) t
            = wsum (fun k => counter_get (DicePool_dist Q) (t - k))
                (DicePool_dist P))
      /\ counter_total (DicePool_dist R)
         = counter_total (DicePool_dist P) * counter_total (DicePool_dist Q)
      /\ (forall t, counter_get (DicePool_dist R') t
                    = counter_get (DicePool_dist R) t).
Proof.
  intros args1 args2 P Q HP HQ.
  destruct (DicePool_init_inv _ _ HP) as [HcP [HdP _]].
  destruct (DicePool_init_inv _ _ HQ) as [HcQ [HdQ _]].
  assert (Hadd : forall A B : DicePool,
             Forall canonical (DicePool_rngs A) ->
             Forall canonical (DicePool_rngs B) ->
             DicePool_add A (OPool B)
             = init_finish (DicePool_rngs A ++ DicePool_rngs B)
                 (DicePool_mod A + DicePool_mod B)).
  { intros A B HA HB. unfold DicePool_add.
    apply DicePool_init_ranges_int, canonical_start, canonical_app;
      assumption. }
  destruct (init_finish_total (DicePool_rngs P ++ DicePool_rngs Q)
              (DicePool_mod P + DicePool_mod Q)) as [R HR].
  { apply range_lt_of_canonical, canonical_app; assumption. }
  destruct (init_finish_total (DicePool_rngs Q ++ DicePool_rngs P)
              (DicePool_mod Q + DicePool_mod P)) as [R' HR'].
  { apply range_lt_of_canonical, canonical_app; assumption. }
  destruct (init_finish_fields _ _ _ HR) as [Hr [Hm Hd]].
  destruct (init_finish_fields _ _ _ HR') as [Hr' [Hm' Hd']].
  exists R, R'. split; [rewrite Hadd; assumption |].
  split; [rewrite Hadd; assumption |].
  split; [exact Hr |]. split; [exact Hm |]. split; [| split].
  - intros t. rewrite Hd, build_dist_ways, map_app, ways_app.
    rewrite HdP. unfold build_dist. rewrite wsum_Counter_of.
    unfold totals. rewrite map_map. apply sum_map_ext. intros u.
    rewrite HdQ, build_dist_ways. f_equal. lia.
  - rewrite Hd, HdP, HdQ, !build_dist_total, map_app.
    clear. induction (DicePool_rngs P) as [| r rs IH].
    + cbn [map app Zprod]. lia.
    + cbn [map app Zprod]. rewrite IH. ring.
  - intros t. rewrite Hd, Hd'.
    replace (DicePool_mod Q + DicePool_mod P)
      with (DicePool_mod P + DicePool_mod Q) by lia.
    apply build_dist_Permutation, Permutation_app_comm.
Qed.

Lemma DicePool_add_pool_convolves_witness :
  exists P Q R,
    DicePool_init [ADice d6; AInt 1] = Ok P
    /\ DicePool_init [ADice d8] = Ok Q
    /\ DicePool_add P (OPool Q) = Ok R
    /\ counter_total (DicePool_dist R) = 48.
Proof.
  eexists. eexists.
  destruct (DicePool_add_pool_convolves
              [ADice d6; AInt 1] [ADice d8] _ _ eq_refl eq_refl)
    as [R [R' [HR [_ [_ [_ [_ [Hmass _]]]]]]]].
  exists R. split; [reflexivity | split; [reflexivity | split]].
  - exact HR.
  - rewrite Hmass. reflexivity.
Defined.

(** ** Dice: addition *)

Lemma count_seq_affine (a v : Z) (n : nat) :
  Z.of_nat (length (filter (fun x => x =? v)
                      (map (fun i => a + Z.of_nat i) (seq 0 n))))
  = if (a <=? v) && (v <? a + Z.of_nat n) then 1 else 0.
Proof.
  induction n as [| n IH].
  - cbn [seq map filter length].
    destruct (a <=? v) eqn:E1, (v <? a + Z.of_nat 0) eqn:E2;
      try reflexivity.
    apply Z.leb_le in E1. apply Z.ltb_lt in E2. lia.
  - rewrite seq_S, map_app, filter_app, length_app, Nat2Z.inj_add, IH.
    cbn [map filter Nat.add].
    destruct (a + Z.of_nat n =? v) eqn:E0;
      destruct (a <=? v) eqn:E1;
      destruct (v <? a + Z.of_nat n) eqn:E2;
      destruct (v <? a + Z.of_nat (S n)) eqn:E3;
      cbn [andb length]; try reflexivity;
      repeat match goal with
        | H : (_ =? _) = true |- _ => apply Z.eqb_eq in H
        | H : (_ =? _) = false |- _ => apply Z.eqb_neq in H
        | H : (_ <=? _) = true |- _ => apply Z.leb_le in H
        | H : (_ <=? _) = false |- _ => apply Z.leb_gt in H
        | H : (_ <? _) = true |- _ => apply Z.ltb_lt in H
        | H : (_ <? _) = false |- _ => apply Z.ltb_ge in H
        end; lia.
Qed.

(** A value occurs once among the elements of a range that holds it and
    not at all otherwise. *)
Lemma count_range (r : range) (v : Z) :
  Z.of_nat (length (filter (fun x => x =? v) (range_elems r)))
  = if (start r <=? v) && (v <? stop r) then 1 else 0.
Proof.
  unfold range_elems, range_len. rewrite count_seq_affine.
  destruct (start r <=? v) eqn:E1; [| reflexivity]. cbn [andb].
  apply Z.leb_le in E1.
  destruct (v <? stop r) eqn:E2,
           (v <? start r + Z.of_nat (Z.to_nat (stop r - start r))) eqn:E3;
    try reflexivity;
    repeat match goal with
      | H : (_ <? _) = true |- _ => apply Z.ltb_lt in H
      | H : (_ <? _) = false |- _ => apply Z.ltb_ge in H
      end; lia.
Qed.

(** X13. [d + n] for a die [d] with a face and an integer [n] is a pool
    of the die's canonical range whose distribution gives multiplicity 1
    to [face + n] for every face of [d], offset included, and 0 to every
    other total. *)
Theorem Dice_add_int_keeps_faces :
  forall (d : Dice) (n : Z),
    start (Dice_rng d) < stop (Dice_rng d) ->
    exists p,
      Dice_add d (OInt n) = Ok p
      /\ DicePool_rngs p = [fst (normalize_rng (inl d))]
      /\ DicePool_mod p = start (Dice_rng d) - 1 + n
      /\ forall t,
           counter_get (DicePool_dist p) t
           = if (start (Dice_rng d) + n <=? t) && (t <? stop (Dice_rng d) + n)
             then 1 else 0.
Proof.
  intros d n Hd. unfold Dice_add. rewrite DicePool_init_decompose.
  cbn [flat_map arg_rngs arg_mod map app].
  destruct (init_finish_total [fst (normalize_rng (inl d))]
              (sum [snd (normalize_rng (inl d)); n]))
    as [p Hp].
  { constructor; [| constructor]. unfold normalize_rng. simpl. lia. }
  destruct (init_finish_fields _ _ _ Hp) as [Hr [Hm Hdist]].
  exists p. split; [exact Hp |]. split; [exact Hr |].
  split; [rewrite Hm; unfold normalize_rng; simpl; lia |].
  intros t. rewrite Hdist, build_dist_ways. cbn [map ways].
  rewrite (sum_map_ext _ (fun x => if x =? t - sum [snd (normalize_rng (inl d)); n]
                                   then 1 else 0)).
  - rewrite sum_indicator, count_range.
    unfold normalize_rng. cbn [fst snd start stop]. rewrite !sum_cons.
    change (sum []) with 0.
    set (a := start (Dice_rng d)). set (b := stop (Dice_rng d)).
    destruct (a - (a - 1) <=? t - (a - 1 + (n + 0))) eqn:E1;
      destruct (t - (a - 1 + (n + 0)) <? b - (a - 1)) eqn:E2;
      destruct (a + n <=? t) eqn:E3;
      destruct (t <? b + n) eqn:E4;
      cbn [andb]; try reflexivity;
      repeat match goal with
        | H : (_ <=? _) = true |- _ => apply Z.leb_le in H
        | H : (_ <=? _) = false |- _ => apply Z.leb_gt in H
        | H : (_ <? _) = true |- _ => apply Z.ltb_lt in H
        | H : (_ <? _) = false |- _ => apply Z.ltb_ge in H
        end; lia.
  - intros x.
    destruct (t - sum [snd (normalize_rng (inl d)); n] - x =? 0) eqn:E1;
      destruct (x =? t - sum [snd (normalize_rng (inl d)); n]) eqn:E2;
      try reflexivity;
      [apply Z.eqb_eq in E1; apply Z.eqb_neq in E2
      | apply Z.eqb_neq in E1; apply Z.eqb_eq in E2]; lia.
Qed.

Lemma Dice_add_int_keeps_faces_witness :
  exists p,
    Dice_add d4_12 (OInt 2) = Ok p
    /\ counter_get (DicePool_dist p) 14 = 1
    /\ counter_get (DicePool_dist p) 15 = 0.
Proof.
  destruct (Dice_add_int_keeps_faces d4_12 2 ltac:(simpl; lia))
    as [p [Hp [_ [_ Hget]]]].
  exists p. split; [exact Hp |]. rewrite !Hget. split; reflexivity.
Defined.

(** ** DicePool: inequality with a die *)

Lemma tuple_eqb_nil_ints (l : list Z) :
  tuple_eqb [] (map VInt l) = Nat.eqb (length l) 0.
Proof. destruct l; reflexivity. Qed.

(** X15. A pool that holds a range is never [==] to a die and always
    [!=] to it.  For a pool without ranges [!=] tells whether the die has
    a face, whatever the modifiers, and [==] whether the die has none and
    the pool's modifier is the die's. *)
Theorem DicePool_eq_ne_Dice :
  forall (p : DicePool) (d : Dice),
    (DicePool_rngs p <> [] ->
     DicePool_eq_Dice p d = false /\ DicePool_ne_Dice p d = true)
    /\ (DicePool_rngs p = [] ->
        DicePool_ne_Dice p d = negb (Nat.eqb (range_len (Dice_rng d)) 0)
        /\ DicePool_eq_Dice p d
           = Nat.eqb (range_len (Dice_rng d)) 0
             && (DicePool_mod p =? start (Dice_rng d) - 1)).
Proof.
  intros p d. unfold DicePool_eq_Dice, DicePool_ne_Dice. split.
  - intros Hne. destruct (DicePool_rngs p) as [| r rs]; [contradiction |].
    destruct (normalize_rng (inl d)) as [rng md].
    rewrite !tuple_eqb_ranges_ints. split; reflexivity.
  - intros ->. cbn [map]. rewrite tuple_eqb_nil_ints, range_elems_length.
    split; [reflexivity |].
    unfold normalize_rng. cbn [map]. rewrite tuple_eqb_nil_ints.
    rewrite range_elems_length. unfold range_len. cbn [start stop].
    replace (stop (Dice_rng d) - (start (Dice_rng d) - 1)
             - (start (Dice_rng d) - (start (Dice_rng d) - 1)))
      with (stop (Dice_rng d) - start (Dice_rng d)) by lia.
    reflexivity.
Qed.

Lemma DicePool_eq_ne_Dice_witness :
  exists p,
    DicePool_init [ADice d6] = Ok p
    /\ DicePool_eq_Dice p d6 = false /\ DicePool_ne_Dice p d6 = true.
Proof.
  eexists. split; [reflexivity |].
  apply DicePool_eq_ne_Dice. discriminate.
Defined.

(** ** Dice: multiplication *)

Lemma collect_constant {A B : Type} (a : A) (l : list B) :
  collect (map (fun _ => Ok a) l) = Ok (repeat a (length l)).
Proof.
  induction l as [| x l IH]; [reflexivity |].
  cbn [map collect length repeat]. rewrite IH. reflexivity.
Qed.

Lemma flat_map_arg_rngs_repeat (d : Dice) (k : nat) :
  flat_map arg_rngs (map ADice (repeat d k))
  = repeat (fst (normalize_rng (inl d))) k.
Proof.
  induction k as [| k IH]; [reflexivity |].
  cbn [repeat map flat_map arg_rngs app]. rewrite IH. reflexivity.
Qed.

Lemma sum_arg_mod_repeat (d : Dice) (k : nat) :
  sum (map arg_mod (map ADice (repeat d k)))
  = Z.of_nat k * snd (normalize_rng (inl d)).
Proof.
  induction k as [| k IH]; [reflexivity |].
  cbn [repeat map arg_mod]. rewrite sum_cons, IH, Nat2Z.inj_succ. lia.
Qed.

Lemma Zprod_repeat (x : Z) (k : nat) : Zprod (repeat x k) = x ^ Z.of_nat k.
Proof.
  induction k as [| k IH]; [reflexivity |].
  cbn [repeat Zprod]. rewrite IH, Nat2Z.inj_succ, Z.pow_succ_r by lia.
  reflexivity.
Qed.

(** [d * k] as one call of the pool's constructor's last step. *)
Lemma Dice_mul_unfold (p1 : Z) (p2 : option Z) (d : Dice) (k : nat) :
  Dice_init p1 p2 = Ok d ->
  Dice_mul d (Z.of_nat k)
  = init_finish (repeat (fst (normalize_rng (inl d))) k)
      (Z.of_nat k * snd (normalize_rng (inl d))).
Proof.
  intros H. unfold Dice_mul.
  rewrite (Dice_init_min_max _ _ _ H), collect_constant.
  cbn [bind]. rewrite range_elems_length. unfold range_len.
  cbn [start stop]. rewrite Z.sub_0_r, Nat2Z.id.
  rewrite DicePool_init_decompose, flat_map_arg_rngs_repeat.
  rewrite sum_arg_mod_repeat. reflexivity.
Qed.

(** X14. For a die [d] the constructor returned, with a face, and
    [n >= 0], [d * n] is a pool of [n] copies of the canonical range of
    [d] with [n] times the die's modifier, whose mass is the number of
    faces to the power [n]; and [d * (n + 1)] is [d * n + d].  For
    [n <= 0] the product is the pool without ranges, [DicePool()]. *)
Theorem Dice_mul_is_repeated_add :
  forall (p1 : Z) (p2 : option Z) (d : Dice) (n : Z),
    Dice_init p1 p2 = Ok d ->
    (0 <= n -> start (Dice_rng d) < stop (Dice_rng d) ->
     exists p,
       Dice_mul d n = Ok p
       /\ DicePool_rngs p
          = repeat (fst (normalize_rng (inl d))) (Z.to_nat n)
       /\ DicePool_mod p = n * (start (Dice_rng d) - 1)
       /\ counter_total (DicePool_dist p)
          = (stop (Dice_rng d) - start (Dice_rng d)) ^ n
       /\ Dice_mul d (n + 1) = DicePool_add p (ODice d))
    /\ (n <= 0 -> Dice_mul d n = DicePool_init []).
Proof.
  intros p1 p2 d n H. split.
  - intros Hn Hd.
    assert (Hcd : canonical (fst (normalize_rng (inl d))))
      by (unfold canonical, normalize_rng; simpl; lia).
    assert (Hc : forall k, Forall canonical
                             (repeat (fst (normalize_rng (inl d))) k)).
    { intros k. apply Forall_forall. intros r Hr.
      apply repeat_spec in Hr. subst r. exact Hcd. }
    replace (Dice_mul d n) with (Dice_mul d (Z.of_nat (Z.to_nat n)))
      by (rewrite Z2Nat.id by lia; reflexivity).
    rewrite (Dice_mul_unfold _ _ _ _ H).
    destruct (init_finish_total
                (repeat (fst (normalize_rng (inl d))) (Z.to_nat n))
                (Z.of_nat (Z.to_nat n) * snd (normalize_rng (inl d)))
                (range_lt_of_canonical _ (Hc _)))
      as [p Hp].
    destruct (init_finish_fields _ _ _ Hp) as [Hr [Hm Hdist]].
    exists p. split; [exact Hp |]. split; [exact Hr |].
    split; [rewrite Hm, Z2Nat.id by lia; reflexivity |]. split.
    + rewrite Hdist, build_dist_total, map_repeat, Zprod_repeat.
      rewrite Z2Nat.id by lia. f_equal.
      unfold normalize_rng, range_len. cbn [fst start stop]. lia.
    + replace (n + 1) with (Z.of_nat (S (Z.to_nat n))) by lia.
      rewrite (Dice_mul_unfold _ _ _ _ H).
      rewrite DicePool_add_Dice_unfold by (rewrite Hr; apply Hc).
      rewrite Hr, Hm. cbn [repeat]. rewrite repeat_cons. f_equal. lia.
  - intros Hn. unfold Dice_mul, range_elems, range_len. cbn [start stop].
    replace (Z.to_nat (n - 0)) with 0%nat by lia. reflexivity.
Qed.

Lemma Dice_mul_is_repeated_add_witness :
  (exists p,
     Dice_mul d4_12 3 = Ok p
     /\ DicePool_mod p = 9
     /\ counter_total (DicePool_dist p) = 729
     /\ Dice_mul d4_12 4 = DicePool_add p (ODice d4_12))
  /\ Dice_mul d4_12 (-2) = DicePool_init [].
Proof.
  destruct (Dice_mul_is_repeated_add 4 (Some 12) d4_12 3 eq_refl)
    as [Hpos _].
  destruct (Dice_mul_is_repeated_add 4 (Some 12) d4_12 (-2) eq_refl)
    as [_ Hneg].
  split.
  - destruct (Hpos ltac:(lia) ltac:(simpl; lia))
      as [p [Hp [_ [Hm [Hmass Hstep]]]]].
    exists p. split; [exact Hp |].
    split; [rewrite Hm; reflexivity |].
    split; [rewrite Hmass; reflexivity | exact Hstep].
  - apply Hneg. lia.
Defined.

(** ** DicePool: the algebra of addition *)

Lemma DicePool_add_pool_unfold (A B : DicePool) :
  Forall canonical (DicePool_rngs A) ->
  Forall canonical (DicePool_rngs B) ->
  DicePool_add A (OPool B)
  = init_finish (DicePool_rngs A ++ DicePool_rngs B)
      (DicePool_mod A + DicePool_mod B).
Proof.
  intros HA HB. unfold DicePool_add.
  apply DicePool_init_ranges_int, canonical_start, canonical_app;
    assumption.
Qed.

(** X16. Addition of pools the constructor returned always returns a
    pool, is associative, and has the pool without arguments,
    [DicePool()], as neutral element on both sides. *)
Theorem DicePool_add_monoid :
  forall (a1 a2 a3 : list arg) (P Q R : DicePool),
    DicePool_init a1 = Ok P ->
    DicePool_init a2 = Ok Q ->
    DicePool_init a3 = Ok R ->
    (exists PQ QR S,
        DicePool_add P (OPool Q) = Ok PQ
        /\ DicePool_add Q (OPool R) = Ok QR
        /\ DicePool_add PQ (OPool R) = Ok S
        /\ DicePool_add P (OPool QR) = Ok S)
    /\ (exists E,
          DicePool_init [] = Ok E
          /\ DicePool_add P (OPool E) = Ok P
          /\ DicePool_add E (OPool P) = Ok P).
Proof.
  intros a1 a2 a3 P Q R HP HQ HR.
  destruct (DicePool_init_inv _ _ HP) as [HcP [_ HfP]].
  destruct (DicePool_init_inv _ _ HQ) as [HcQ _].
  destruct (DicePool_init_inv _ _ HR) as [HcR _].
  split.
  - destruct (init_finish_total (DicePool_rngs P ++ DicePool_rngs Q)
                (DicePool_mod P + DicePool_mod Q)) as [PQ HPQ].
    { apply range_lt_of_canonical, canonical_app; assumption. }
    destruct (init_finish_total (DicePool_rngs Q ++ DicePool_rngs R)
                (DicePool_mod Q + DicePool_mod R)) as [QR HQR].
    { apply range_lt_of_canonical, canonical_app; assumption. }
    destruct (init_finish_fields _ _ _ HPQ) as [Hr1 [Hm1 _]].
    destruct (init_finish_fields _ _ _ HQR) as [Hr2 [Hm2 _]].
    assert (Hc1 : Forall canonical (DicePool_rngs PQ))
      by (rewrite Hr1; apply canonical_app; assumption).
    assert (Hc2 : Forall canonical (DicePool_rngs QR))
      by (rewrite Hr2; apply canonical_app; assumption).
    destruct (init_finish_total (DicePool_rngs PQ ++ DicePool_rngs R)
                (DicePool_mod PQ + DicePool_mod R)) as [S HS].
    { apply range_lt_of_canonical, canonical_app; assumption. }
    exists PQ, QR, S.
    rewrite !DicePool_add_pool_unfold by assumption.
    split; [exact HPQ |]. split; [exact HQR |]. split; [exact HS |].
    rewrite <- HS, Hr1, Hr2, Hm1, Hm2, app_assoc. f_equal. lia.
  - eexists. split; [reflexivity |].
    rewrite !DicePool_add_pool_unfold by (assumption || constructor).
    cbn [DicePool_rngs DicePool_mod app]. rewrite app_nil_r, Z.add_0_r.
    split; exact HfP.
Qed.

Lemma DicePool_add_monoid_witness :
  exists P E,
    DicePool_init [ADice d6; AInt 1] = Ok P
    /\ DicePool_init [] = Ok E
    /\ DicePool_add P (OPool E) = Ok P
    /\ DicePool_add E (OPool P) = Ok P.
Proof.
  assert (HP : exists P, DicePool_init [ADice d6; AInt 1] = Ok P)
    by (eexists; reflexivity).
  destruct HP as [P HP].
  destruct (DicePool_add_monoid _ _ _ P P P HP HP HP)
    as [_ [E [HE [H1 H2]]]].
  exists P, E. repeat split; assumption.
Defined.

(** ** DicePool: taking a die away again, in general *)

Lemma range_eqb_canonical (r s : range) :
  canonical r -> start s = 1 -> range_eqb r s = true -> r = s.
Proof.
  intros [Hr1 Hr2] Hs H. unfold range_eqb, range_len in H.
  apply andb_prop in H. destruct H as [Hl _].
  apply Nat.eqb_eq in Hl.
  destruct r as [a b], s as [c e]; cbn [start stop] in *. subst a c.
  f_equal. lia.
Qed.

(** Among canonical ranges [remove] takes out an element identical to the
    one asked for. *)
Lemma list_remove_Permutation (x : range) (l : list range) :
  Forall canonical l -> start x = 1 -> range_in x l = true ->
  exists l', list_remove x l = Ok l' /\ Permutation l (x :: l').
Proof.
  intros Hc Hx. induction Hc as [| r l Hr _ IH]; intros Hin.
  - discriminate Hin.
  - unfold range_in in Hin. cbn [existsb] in Hin. cbn [list_remove].
    destruct (range_eqb r x) eqn:E.
    + exists l. split; [reflexivity |].
      rewrite (range_eqb_canonical r x Hr Hx E). apply Permutation_refl.
    + cbn [orb] in Hin. destruct (IH Hin) as [l' [Hl' Hp]].
      exists (r :: l'). rewrite Hl'. split; [reflexivity |].
      apply Permutation_trans with (r :: x :: l').
      * apply perm_skip, Hp.
      * apply perm_swap.
Qed.

(** X17. For every pool [Q] the constructor returned and every die [d]
    with a face, whether or not [Q] already holds the range of [d],
    [Q + d] is a pool and [(Q + d) - d] is a pool with the modifier, the
    multiplicities, the [min] and the [max] of [Q], its ranges being
    those of [Q] up to their order. *)
Theorem DicePool_add_sub_Dice :
  forall (args : list arg) (Q : DicePool) (d : Dice),
    DicePool_init args = Ok Q ->
    start (Dice_rng d) < stop (Dice_rng d) ->
    exists P Q',
      DicePool_add Q (ODice d) = Ok P
      /\ DicePool_sub P (ODice d) = Ok Q'
      /\ Permutation (DicePool_rngs Q) (DicePool_rngs Q')
      /\ DicePool_mod Q' = DicePool_mod Q
      /\ (forall t, counter_get (DicePool_dist Q') t
                    = counter_get (DicePool_dist Q) t)
      /\ DicePool_min Q' = DicePool_min Q
      /\ DicePool_max Q' = DicePool_max Q.
Proof.
  intros args Q d HQ Hd.
  destruct (DicePool_init_inv _ _ HQ) as [Hc [HdQ _]].
  pose proof (DicePool_extremes _ _ HQ) as [Hmin [Hmax _]].
  destruct (DicePool_add_Dice_total _ _ d HQ Hd) as [P HP].
  pose proof HP as HP0. rewrite (DicePool_add_Dice_unfold Q d Hc) in HP0.
  destruct (init_finish_fields _ _ _ HP0) as [Hr [Hm _]].
  destruct (normalize_rng (inl d)) as [nd dm] eqn:En.
  cbn [fst snd] in *.
  assert (Hnd : canonical nd).
  { unfold normalize_rng in En. injection En as <- _.
    unfold canonical. simpl. lia. }
  assert (HcP : Forall canonical (DicePool_rngs Q ++ [nd]))
    by (apply canonical_app; [exact Hc | constructor; [exact Hnd | constructor]]).
  destruct (list_remove_Permutation nd (DicePool_rngs Q ++ [nd]) HcP)
    as [l' [Hl' Hperm]].
  { apply Hnd. }
  { rewrite range_in_app, orb_comm. unfold range_in at 1.
    cbn [existsb]. rewrite range_eqb_refl. reflexivity. }
  assert (Hp' : Permutation (DicePool_rngs Q) l').
  { apply Permutation_cons_inv with nd.
    apply Permutation_trans with (DicePool_rngs Q ++ [nd]); [| exact Hperm].
    apply Permutation_cons_append. }
  assert (Hc' : Forall canonical l')
    by (eapply Permutation_Forall; [exact Hp' | exact Hc]).
  destruct (init_finish_total l' (DicePool_mod Q)
              (range_lt_of_canonical _ Hc')) as [Q' HQ'].
  assert (Hsub : DicePool_sub P (ODice d) = Ok Q').
  { unfold DicePool_sub. rewrite En, Hr, Hm.
    rewrite range_in_app, orb_comm. unfold range_in at 1.
    cbn [existsb]. rewrite range_eqb_refl. cbn [orb].
    rewrite Hl'. cbn [bind].
    rewrite (DicePool_init_ranges_int _ _ (canonical_start _ Hc')).
    replace (dm + DicePool_mod Q - dm) with (DicePool_mod Q) by lia.
    exact HQ'. }
  assert (HQ'init : DicePool_init (map ARange l' ++ [AInt (DicePool_mod Q)])
                    = Ok Q')
    by (rewrite (DicePool_init_ranges_int _ _ (canonical_start _ Hc'));
        exact HQ').
  pose proof (DicePool_extremes _ _ HQ'init)
    as [Hmin' [Hmax' _]].
  destruct (init_finish_fields _ _ _ HQ') as [Hr' [Hm' Hd']].
  exists P, Q'. split; [exact HP |]. split; [exact Hsub |].
  split; [rewrite Hr'; exact Hp' |]. split; [exact Hm' |].
  split; [| split].
  - intros t. rewrite Hd', HdQ.
    apply build_dist_Permutation, Permutation_sym, Hp'.
  - rewrite Hmin, Hmin', Hr', Hm', (Permutation_length Hp'). reflexivity.
  - rewrite Hmax, Hmax', Hr', Hm'. f_equal.
    apply sum_Permutation, Permutation_map, Permutation_sym, Hp'.
Qed.

Lemma DicePool_add_sub_Dice_witness :
  exists Q P Q',
    DicePool_init [ADice d6; ADice d8; AInt 1] = Ok Q
    /\ DicePool_add Q (ODice d6) = Ok P
    /\ DicePool_sub P (ODice d6) = Ok Q'
    /\ counter_get (DicePool_dist Q') 9 = counter_get (DicePool_dist Q) 9.
Proof.
  assert (HQ : exists Q, DicePool_init [ADice d6; ADice d8; AInt 1] = Ok Q)
    by (eexists; reflexivity).
  destruct HQ as [Q HQ].
  destruct (DicePool_add_sub_Dice _ Q d6 HQ ltac:(simpl; lia))
    as [P [Q' [HP [Hs [_ [_ [Hget _]]]]]]].
  exists Q, P, Q'. repeat split; try assumption. apply Hget.
Defined.

(** ** DicePool: equality of two pools *)

Lemma counter_get_lookup (c : Counter) (k : Z) :
  counter_get c k = match counter_lookup c k with
                    | Some v => v
                    | None => 0
                    end.
Proof.
  induction c as [| [k' v] c IH]; simpl; [reflexivity |].
  destruct (k' =? k); [reflexivity | exact IH].
Qed.

Lemma counter_lookup_None (c : Counter) (k : Z) :
  counter_lookup c k = None <-> ~ In k (counter_keys c).
Proof.
  unfold counter_keys. induction c as [| [k' v] c IH]; simpl.
  - tauto.
  - destruct (k' =? k) eqn:E.
    + apply Z.eqb_eq in E. split; [discriminate | tauto].
    + apply Z.eqb_neq in E. rewrite IH. tauto.
Qed.

Lemma counter_get_absent (c : Counter) (k : Z) :
  ~ In k (counter_keys c) -> counter_get c k = 0.
Proof.
  intros H. apply counter_lookup_None in H.
  rewrite counter_get_lookup, H. reflexivity.
Qed.

Lemma counter_lookup_In (c : Counter) (k v : Z) :
  NoDup (counter_keys c) -> In (k, v) c -> counter_lookup c k = Some v.
Proof.
  unfold counter_keys. induction c as [| [k' v'] c IH]; simpl;
    intros Hnd Hin; [contradiction |].
  inversion Hnd as [| x l Hx Hnd']; subst.
  destruct Hin as [Heq | Hin].
  - injection Heq as -> ->. rewrite Z.eqb_refl. reflexivity.
  - destruct (k' =? k) eqn:E; [| apply IH; assumption].
    apply Z.eqb_eq in E. subst k'. exfalso. apply Hx.
    apply in_map_iff. exists (k, v). auto.
Qed.

(** Equality of counters is equality of all counts. *)
Lemma Counter_eqb_spec (c1 c2 : Counter) :
  Counter_eqb c1 c2 = true <-> forall t, counter_get c1 t = counter_get c2 t.
Proof.
  unfold Counter_eqb. rewrite forallb_forall. split.
  - intros H t.
    destruct (in_dec Z.eq_dec t (counter_keys c1 ++ counter_keys c2))
      as [Hin | Hnot].
    + apply Z.eqb_eq, H, Hin.
    + rewrite !counter_get_absent; [reflexivity | |];
        intros Hin; apply Hnot, in_or_app; auto.
  - intros H t _. apply Z.eqb_eq, H.
Qed.

Lemma counter_incr_tidy (k : Z) (c : Counter) :
  tidy c -> tidy (counter_incr k c).
Proof.
  intros [Hnd Hpos]. split.
  - destruct (in_dec Z.eq_dec k (counter_keys c)) as [Hin | Hnot].
    + rewrite counter_keys_incr_old by exact Hin. exact Hnd.
    + rewrite counter_keys_incr_new by exact Hnot.
      apply NoDup_app; [exact Hnd | repeat constructor; simpl; tauto |].
      intros x Hx [<- | []]. contradiction.
  - clear Hnd. induction Hpos as [| [k' v] c Hv Hc IH]; simpl.
    + constructor; [simpl; lia | constructor].
    + destruct (k' =? k).
      * constructor; [simpl in *; lia | assumption].
      * constructor; [assumption | exact IH].
Qed.

Lemma Counter_of_tidy (l : list Z) : tidy (Counter_of l).
Proof.
  unfold Counter_of.
  assert (H : forall c, tidy c ->
                        tidy (fold_left (fun c k => counter_incr k c) l c)).
  { induction l as [| k l IH]; intros c Hc; [exact Hc |].
    cbn [fold_left]. apply IH, counter_incr_tidy, Hc. }
  apply H. split; constructor.
Qed.

Lemma tidy_key_count (c : Counter) (k : Z) :
  tidy c -> In k (counter_keys c) <-> 0 < counter_get c k.
Proof.
  intros [Hnd Hpos]. split.
  - intros Hin. unfold counter_keys in Hin. apply in_map_iff in Hin.
    destruct Hin as [[k' v] [Hk Hin]]. simpl in Hk. subst k'.
    rewrite counter_get_lookup, (counter_lookup_In c k v Hnd Hin).
    rewrite Forall_forall in Hpos. apply (Hpos (k, v) Hin).
  - intros Hpos'.
    destruct (in_dec Z.eq_dec k (counter_keys c)) as [Hin | Hnot];
      [exact Hin |].
    rewrite (counter_get_absent c k Hnot) in Hpos'. lia.
Qed.

(** On tidy counters the two notions of equality agree. *)
Lemma dict_eqb_Counter_eqb (c1 c2 : Counter) :
  tidy c1 -> tidy c2 -> dict_eqb c1 c2 = Counter_eqb c1 c2.
Proof.
  intros T1 T2. apply Bool.eq_iff_eq_true. rewrite Counter_eqb_spec.
  unfold dict_eqb. rewrite andb_true_iff, Nat.eqb_eq, forallb_forall.
  pose proof T1 as [Hnd1 Hpos1]. pose proof T2 as [Hnd2 Hpos2].
  split.
  - intros [Hlen Hall] t.
    assert (Hincl : incl (counter_keys c1) (counter_keys c2)).
    { intros k Hk. unfold counter_keys in Hk. apply in_map_iff in Hk.
      destruct Hk as [[k' v] [Hk Hin]]. simpl in Hk. subst k'.
      specialize (Hall (k, v) Hin). cbn [fst snd] in Hall.
      destruct (counter_lookup c2 k) as [v' |] eqn:E; [| discriminate].
      destruct (in_dec Z.eq_dec k (counter_keys c2)) as [H | H];
        [exact H |].
      apply counter_lookup_None in H. congruence. }
    destruct (in_dec Z.eq_dec t (counter_keys c1)) as [Hin | Hnot].
    + unfold counter_keys in Hin. apply in_map_iff in Hin.
      destruct Hin as [[k v] [Hk Hin]]. simpl in Hk. subst k.
      specialize (Hall (t, v) Hin). cbn [fst snd] in Hall.
      rewrite !counter_get_lookup, (counter_lookup_In c1 t v Hnd1 Hin).
      destruct (counter_lookup c2 t) as [v' |]; [| discriminate].
      apply Z.eqb_eq in Hall. symmetry. exact Hall.
    + rewrite (counter_get_absent c1 t Hnot). symmetry.
      apply counter_get_absent. intros Hin2. apply Hnot.
      refine (NoDup_length_incl Hnd1 _ Hincl t Hin2).
      unfold counter_keys. rewrite !length_map. lia.
  - intros Hget.
    assert (Hincl : forall a b, tidy a -> tidy b ->
               (forall t, counter_get a t = counter_get b t) ->
               incl (counter_keys a) (counter_keys b)).
    { intros a b Ta Tb Hab k Hk.
      apply (tidy_key_count b k Tb). rewrite <- Hab.
      apply (tidy_key_count a k Ta). exact Hk. }
    split.
    + pose proof (NoDup_incl_length Hnd1 (Hincl c1 c2 T1 T2 Hget)) as L1.
      pose proof (NoDup_incl_length Hnd2
                    (Hincl c2 c1 T2 T1 (fun t => eq_sym (Hget t)))) as L2.
      unfold counter_keys in L1, L2. rewrite !length_map in L1, L2. lia.
    + intros [k v] Hin. cbn [fst snd].
      pose proof (counter_lookup_In c1 k v Hnd1 Hin) as Hl1.
      pose proof (Hget k) as Hk. rewrite !counter_get_lookup, Hl1 in Hk.
      rewrite Forall_forall in Hpos1. specialize (Hpos1 (k, v) Hin).
      cbn [snd] in Hpos1.
      destruct (counter_lookup c2 k) as [v' |]; [| lia].
      apply Z.eqb_eq. symmetry. exact Hk.
Qed.

(** X18. Two pools the constructor returned are [==] exactly when they
    have the same modifier and give every total the same multiplicity,
    whatever the order of their ranges; [!=] is the negation of [==];
    comparing the distributions as plain dictionaries gives the same
    answer; and [P + Q == Q + P]. *)
Theorem DicePool_eq_pool_spec :
  forall (a1 a2 : list arg) (P Q : DicePool),
    DicePool_init a1 = Ok P ->
    DicePool_init a2 = Ok Q ->
    (DicePool_eq_pool P Q = true
     <-> DicePool_mod P = DicePool_mod Q
         /\ forall t, counter_get (DicePool_dist P) t
                      = counter_get (DicePool_dist Q) t)
    /\ DicePool_ne_pool P Q = negb (DicePool_eq_pool P Q)
    /\ dict_eqb (DicePool_dist P) (DicePool_dist Q)
       = Counter_eqb (DicePool_dist P) (DicePool_dist Q)
    /\ exists R R',
         DicePool_add P (OPool Q) = Ok R
         /\ DicePool_add Q (OPool P) = Ok R'
         /\ DicePool_eq_pool R R' = true.
Proof.
  intros a1 a2 P Q HP HQ.
  destruct (DicePool_init_inv _ _ HP) as [HcP [HdP _]].
  destruct (DicePool_init_inv _ _ HQ) as [HcQ [HdQ _]].
  split; [| split; [| split]].
  - unfold DicePool_eq_pool.
    rewrite andb_true_iff, Counter_eqb_spec, Z.eqb_eq. tauto.
  - unfold DicePool_ne_pool, DicePool_eq_pool.
    rewrite negb_andb. reflexivity.
  - rewrite HdP, HdQ. apply dict_eqb_Counter_eqb; apply Counter_of_tidy.
  - destruct (init_finish_total (DicePool_rngs P ++ DicePool_rngs Q)
                (DicePool_mod P + DicePool_mod Q)) as [R HR].
    { apply range_lt_of_canonical, canonical_app; assumption. }
    destruct (init_finish_total (DicePool_rngs Q ++ DicePool_rngs P)
                (DicePool_mod Q + DicePool_mod P)) as [R' HR'].
    { apply range_lt_of_canonical, canonical_app; assumption. }
    destruct (init_finish_fields _ _ _ HR) as [_ [Hm Hd]].
    destruct (init_finish_fields _ _ _ HR') as [_ [Hm' Hd']].
    exists R, R'. rewrite !DicePool_add_pool_unfold by assumption.
    split; [exact HR |]. split; [exact HR' |].
    unfold DicePool_eq_pool.
    rewrite andb_true_iff, Counter_eqb_spec, Z.eqb_eq.
    split; [| rewrite Hm, Hm'; lia].
    intros t. rewrite Hd, Hd'.
    replace (DicePool_mod Q + DicePool_mod P)
      with (DicePool_mod P + DicePool_mod Q) by lia.
    apply build_dist_Permutation, Permutation_app_comm.
Qed.

Lemma DicePool_eq_pool_spec_witness :
  exists P Q,
    DicePool_init [ADice d6; ADice d8] = Ok P
    /\ DicePool_init [ADice d8; ADice d6] = Ok Q
    /\ DicePool_ne_pool P Q = negb (DicePool_eq_pool P Q)
    /\ DicePool_eq_pool P Q = true.
Proof.
  assert (HP : exists P, DicePool_init [ADice d6; ADice d8] = Ok P)
    by (eexists; reflexivity).
  assert (HQ : exists Q, DicePool_init [ADice d8; ADice d6] = Ok Q)
    by (eexists; reflexivity).
  destruct HP as [P HP]. destruct HQ as [Q HQ].
  destruct (DicePool_eq_pool_spec _ _ P Q HP HQ) as [_ [Hne _]].
  exists P, Q. split; [exact HP | split; [exact HQ | split; [exact Hne |]]].
  apply Ok_inj in HP. apply Ok_inj in HQ. subst P Q. reflexivity.
Defined.

(** ** Rendering *)

Lemma append_assoc (a b c : string) :
  ((a ++ b) ++ c)%string = (a ++ (b ++ c))%string.
Proof.
  induction a as [| ch a IH]; [reflexivity |].
  cbn [append]. rewrite IH. reflexivity.
Qed.

Lemma append_empty_r (a : string) : (a ++ "")%string = a.
Proof.
  induction a as [| ch a IH]; [reflexivity |].
  cbn [append]. rewrite IH. reflexivity.
Qed.

Lemma Dice_str_suffix (d : Dice) :
  Dice_str d
  = ("d" ++ str_int (stop (Dice_rng d) - start (Dice_rng d))
     ++ mod_suffix (start (Dice_rng d) - 1))%string.
Proof.
  unfold Dice_str, mod_suffix.
  replace (stop (Dice_rng d) - (start (Dice_rng d) - 1) - 1)
    with (stop (Dice_rng d) - start (Dice_rng d)) by lia.
  destruct (start (Dice_rng d) - 1 =? 0); cbn [negb].
  - rewrite append_empty_r. reflexivity.
  - destruct (0 <? start (Dice_rng d) - 1); rewrite !append_assoc;
      reflexivity.
Qed.

Lemma DicePool_str_suffix (p : DicePool) :
  DicePool_str p
  = (String.concat " + "
       (map (fun item =>
               (str_int (snd item) ++ "d" ++ str_int (stop (fst item) - 1))
                 %string)
          (fold_left (fun pool rng => dict_bump rng pool)
             (DicePool_rngs p) []))
     ++ mod_suffix (DicePool_mod p))%string.
Proof.
  unfold DicePool_str, mod_suffix.
  destruct (DicePool_mod p =? 0); cbn [negb].
  - rewrite append_empty_r. reflexivity.
  - destruct (0 <? DicePool_mod p); rewrite !append_assoc; reflexivity.
Qed.

(** Copies of one range are counted under one key. *)
Lemma dict_bump_repeat (r : range) (k : nat) (num : Z) :
  fold_left (fun pool rng => dict_bump rng pool) (repeat r k) [(r, num)]
  = [(r, num + Z.of_nat k)].
Proof.
  revert num. induction k as [| k IH]; intros num.
  - cbn [repeat fold_left]. rewrite Z.add_0_r. reflexivity.
  - cbn [repeat fold_left dict_bump]. rewrite range_eqb_refl, IH.
    rewrite Nat2Z.inj_succ. do 2 f_equal. lia.
Qed.

(** X19. A pool without ranges is rendered as its modifier's suffix
    alone, the empty string when the modifier is 0.  For a die [d] the
    constructor returned, with a face, and [n >= 1], the copies of [d]
    in [d * n] are rendered as one term, [str(d * n)] being [n], ["d"],
    the number of faces and the suffix of [n] times the die's modifier;
    hence [str(d * 1)] is ["1"] followed by [str(d)]. *)
Theorem DicePool_str_groups_copies :
  (forall (args : list arg) (p : DicePool),
      DicePool_init args = Ok p -> DicePool_rngs p = [] ->
      DicePool_str p = mod_suffix (DicePool_mod p))
  /\ (forall (p1 : Z) (p2 : option Z) (d : Dice) (n : Z),
        Dice_init p1 p2 = Ok d ->
        start (Dice_rng d) < stop (Dice_rng d) ->
        1 <= n ->
        exists p,
          Dice_mul d n = Ok p
          /\ DicePool_str p
             = (str_int n ++ "d"
                ++ str_int (stop (Dice_rng d) - start (Dice_rng d))
                ++ mod_suffix (n * (start (Dice_rng d) - 1)))%string
          /\ (n = 1 -> DicePool_str p = ("1" ++ Dice_str d)%string)).
Proof.
  split.
  - intros args p _ Hr. rewrite DicePool_str_suffix, Hr. reflexivity.
  - intros p1 p2 d n H Hd Hn.
    assert (Hcd : canonical (fst (normalize_rng (inl d))))
      by (unfold canonical, normalize_rng; simpl; lia).
    replace (Dice_mul d n) with (Dice_mul d (Z.of_nat (Z.to_nat n)))
      by (rewrite Z2Nat.id by lia; reflexivity).
    rewrite (Dice_mul_unfold _ _ _ _ H).
    destruct (init_finish_total
                (repeat (fst (normalize_rng (inl d))) (Z.to_nat n))
                (Z.of_nat (Z.to_nat n) * snd (normalize_rng (inl d))))
      as [p Hp].
    { apply Forall_forall. intros r Hr. apply repeat_spec in Hr. subst r.
      destruct Hcd as [H1 H2]. lia. }
    destruct (init_finish_fields _ _ _ Hp) as [Hr [Hm _]].
    assert (Hstr : DicePool_str p
                   = (str_int n ++ "d"
                      ++ str_int (stop (Dice_rng d) - start (Dice_rng d))
                      ++ mod_suffix (n * (start (Dice_rng d) - 1)))%string).
    { rewrite DicePool_str_suffix, Hr, Hm.
      replace (Z.to_nat n) with (S (Z.to_nat (n - 1))) by lia.
      cbn [repeat fold_left dict_bump]. rewrite dict_bump_repeat.
      cbn [map String.concat fst snd].
      replace (0 + 1 + Z.of_nat (Z.to_nat (n - 1))) with n by lia.
      replace (Z.of_nat (S (Z.to_nat (n - 1)))) with n by lia.
      unfold normalize_rng. cbn [fst snd stop start].
      replace (stop (Dice_rng d) - (start (Dice_rng d) - 1) - 1)
        with (stop (Dice_rng d) - start (Dice_rng d)) by lia.
      rewrite !append_assoc. reflexivity. }
    exists p. split; [exact Hp |]. split; [exact Hstr |].
    intros ->. rewrite Hstr, Dice_str_suffix, Z.mul_1_l. reflexivity.
Qed.

Lemma DicePool_str_groups_copies_witness :
  (exists p, DicePool_init [AInt 3] = Ok p
             /\ DicePool_str p = " + 3"%string)
  /\ (exists p, Dice_mul d4_12 2 = Ok p
                /\ DicePool_str p = "2d9 + 6"%string).
Proof.
  destruct DicePool_str_groups_copies as [Hnil Hmul].
  split.
  - eexists. split; [reflexivity |].
    rewrite (Hnil [AInt 3]); reflexivity.
  - destruct (Hmul 4 (Some 12) d4_12 2 eq_refl
                ltac:(simpl; lia) ltac:(lia))
      as [p [Hp [Hs _]]].
    exists p. split; [exact Hp |]. rewrite Hs. reflexivity.
Defined.
